(** * Outgoing sync of users into Google Workspace

    A shallow embedding of
    [authentik/enterprise/providers/google_workspace/clients/users.py]
    ([GoogleWorkspaceUserClient]) and the properties of its write, delete
    and schema-building paths.

    Python values are an inductive type, a Python [dict] is an association
    list in insertion order, the Django tables and the remote directory
    live in an explicit world threaded through a state-and-exception
    monad. *)

From Stdlib Require Import List String Ascii ZArith Bool Lia.
From Stdlib Require Import Sorted Permutation.
Import ListNotations.
Local Open Scope string_scope.
Local Open Scope list_scope.

Set Implicit Arguments.
Set Warnings "-register-all".

(* ================================================================= *)
(** ** Python values *)

Module Py.

(** The values a property mapping can hand to the client: the JSON
    fragment of Python.  A [dict] keeps its keys in insertion order. *)
Inductive value : Type :=
| VNone
| VBool (b : bool)
| VInt (n : Z)
| VStr (s : string)
| VList (xs : list value)
| VDict (kvs : list (string * value)).

Definition dict : Type := list (string * value).

(** [k in d] and [d.get(k)]. *)
Fixpoint dict_get (k : string) (d : dict) : option value :=
  match d with
  | [] => None
  | (k', v) :: d' => if String.eqb k k' then Some v else dict_get k d'
  end.

Definition dict_contains (k : string) (d : dict) : bool :=
  match dict_get k d with Some _ => true | None => false end.

(** [d[k] = v]: an existing key keeps its position, a new key goes last. *)
Fixpoint dict_set (k : string) (v : value) (d : dict) : dict :=
  match d with
  | [] => [(k, v)]
  | (k', v') :: d' =>
      if String.eqb k k' then (k', v) :: d' else (k', v') :: dict_set k v d'
  end.

Definition keys (d : dict) : list string := map fst d.

Definition is_none (v : value) : bool :=
  match v with VNone => true | _ => false end.

(** Whether two values are the same value, as a key of a table is
    compared. *)
Fixpoint value_eqb (a b : value) {struct a} : bool :=
  match a, b with
  | VNone, VNone => true
  | VBool x, VBool y => Bool.eqb x y
  | VInt x, VInt y => Z.eqb x y
  | VStr x, VStr y => String.eqb x y
  | VList xs, VList ys =>
      (fix list_eqb (xs ys : list value) {struct xs} : bool :=
         match xs, ys with
         | [], [] => true
         | x :: xs', y :: ys' => value_eqb x y && list_eqb xs' ys'
         | _, _ => false
         end) xs ys
  | VDict xs, VDict ys =>
      (fix dict_eqb (xs ys : list (string * value)) {struct xs} : bool :=
         match xs, ys with
         | [], [] => true
         | (k, x) :: xs', (k', y) :: ys' =>
             String.eqb k k' && value_eqb x y && dict_eqb xs' ys'
         | _, _ => false
         end) xs ys
  | _, _ => false
  end.

(** Induction on a value and on the values inside it. *)
Section ValueInduction.

Variable P : value -> Prop.
Hypothesis HNone : P VNone.
Hypothesis HBool : forall b, P (VBool b).
Hypothesis HInt : forall n, P (VInt n).
Hypothesis HStr : forall s, P (VStr s).
Hypothesis HList : forall xs, Forall P xs -> P (VList xs).
Hypothesis HDict :
  forall kvs, Forall (fun kv => P (snd kv)) kvs -> P (VDict kvs).

Fixpoint value_induction (v : value) {struct v} : P v :=
  match v with
  | VNone => HNone
  | VBool b => HBool b
  | VInt n => HInt n
  | VStr s => HStr s
  | VList xs =>
      HList
        ((fix all (xs : list value) : Forall P xs :=
            match xs with
            | [] => Forall_nil P
            | x :: xs' => Forall_cons x (value_induction x) (all xs')
            end) xs)
  | VDict kvs =>
      HDict
        ((fix all (kvs : list (string * value))
            : Forall (fun kv => P (snd kv)) kvs :=
            match kvs with
            | [] => Forall_nil (fun kv => P (snd kv))
            | kv :: kvs' =>
                Forall_cons kv (value_induction (snd kv)) (all kvs')
            end) kvs)
  end.

End ValueInduction.

(** Python's [dict.__eq__] does not look at the order of the keys. *)
Definition dict_equiv (d1 d2 : dict) : Prop :=
  forall k, dict_get k d1 = dict_get k d2.

(** *** deepmerge's [always_merger]

    [Merger([(list, "append"), (dict, "merge"), (set, "union")],
            ["override"], ["override"])]:
    two lists are concatenated, two dicts are merged key by key, and
    everything else (other types, or a type conflict) is overridden by
    the incoming value.  The dict strategy is

    [for k, v in nxt.items():
         if k not in base: base[k] = v
         else: base[k] = config.value_strategy(path + [k], base[k], v)] *)
Fixpoint value_strategy (base nxt : value) {struct nxt} : value :=
  match base, nxt with
  | VList b, VList n => VList (b ++ n)
  | VDict b, VDict n =>
      VDict
        ((fix strategy_merge (b : dict) (n : list (string * value))
            {struct n} : dict :=
            match n with
            | [] => b
            | (k, v) :: n' =>
                strategy_merge
                  (match dict_get k b with
                   | None => dict_set k v b
                   | Some bv => dict_set k (value_strategy bv v) b
                   end) n'
            end) b n)
  | _, _ => nxt
  end.

Fixpoint strategy_merge (b : dict) (n : dict) {struct n} : dict :=
  match n with
  | [] => b
  | (k, v) :: n' =>
      strategy_merge
        (match dict_get k b with
         | None => dict_set k v b
         | Some bv => dict_set k (value_strategy bv v) b
         end) n'
  end.

(** [always_merger.merge(raw, value)] with the result thrown away, as
    the client calls it: only the in-place effect on [raw] counts.  The
    dict strategy mutates [raw]; every other strategy builds a new
    object and leaves [raw] as it was. *)
Definition merge_in_place (raw : dict) (value0 : value) : dict :=
  match value0 with
  | VDict n => strategy_merge raw n
  | _ => raw
  end.

End Py.

Import Py.

(* ================================================================= *)
(** ** Exceptions and the sync monad *)

(** The exception classes the client names or can raise.  [StopSync]
    carries its cause and, when there is one, the name of the offending
    mapping. *)
Inductive exn : Type :=
| NotFoundSyncException
| ObjectExistsSyncException
| TransientSyncException
| StopSync (cause : exn) (mapping : option string)
| PropertyMappingExpressionException (msg : string)
| ValueError (msg : string)
| KeyError (key : string)
| TypeError
| IntegrityError
| OtherException (name : string).

Definition is_StopSync (e : exn) : bool :=
  match e with StopSync _ _ => true | _ => false end.

Inductive outcome (A : Type) : Type :=
| Returns (a : A)
| Raises (e : exn).
Arguments Returns {A} a.
Arguments Raises {A} e.

(** [v[k]] on a value that came back from a mapping or from the remote. *)
Definition subscript (v : value) (k : string) : outcome value :=
  match v with
  | VDict d =>
      match dict_get k d with
      | Some x => Returns x
      | None => Raises (KeyError k)
      end
  | _ => Raises TypeError
  end.

(** [for x in v]: the items a comprehension sees. *)
Fixpoint chars (s : string) : list value :=
  match s with
  | EmptyString => []
  | String c s' => VStr (String c EmptyString) :: chars s'
  end.

Definition iterate (v : value) : outcome (list value) :=
  match v with
  | VList xs => Returns xs
  | VDict d => Returns (map VStr (keys d))
  | VStr s => Returns (chars s)
  | _ => Raises TypeError
  end.

(** [[x["address"] for x in xs]], left to right, stopping at the first
    exception. *)
Fixpoint addresses (xs : list value) : outcome (list value) :=
  match xs with
  | [] => Returns []
  | x :: xs' =>
      match subscript x "address" with
      | Raises e => Raises e
      | Returns a =>
          match addresses xs' with
          | Raises e => Raises e
          | Returns r => Returns (a :: r)
          end
      end
  end.

(* ================================================================= *)
(** ** Models *)

Record User : Type := mkUser {
  user_pk : nat;
  username : string;
  email : string
}.

Record Provider : Type := mkProvider {
  provider_pk : nat;
  provider_name : string
}.

(** A row of [provider.property_mappings]: its name, whether
    [select_subclasses] yields a [GoogleWorkspaceProviderMapping], and
    what [evaluate(user, request=None, provider)] does. *)
Record PropertyMapping : Type := mkMapping {
  pm_name : string;
  pm_is_google : bool;
  evaluate : User -> Provider -> outcome value
}.

(** Modelled from the spec: the Link Table.  The model class
    [GoogleWorkspaceProviderUser] and its manager are imported by the
    client but declared elsewhere; a row is the durable tuple
    (provider, local object, external identifier), and the table offers
    creation, lookup and deletion of a row and nothing else.  The row is
    keyed by the external identifier: the client passes it as [id=] when
    it creates the row and reads it back as [google_user.id], so it is
    the row's primary key, no two rows hold the same one, and
    [instance.delete()] finds the row by it. *)
Record LinkRecord : Type := mkLink {
  lr_provider : nat;
  lr_user : nat;
  lr_id : value
}.

(** A saved [Event]. *)
Record Event : Type := mkEvent {
  ev_action : string;
  ev_message : string;
  ev_mapping : string
}.

(** Requests sent through [self._request]. *)
Inductive call : Type :=
| CallInsert (body : dict)
| CallUpdate (userKey : value) (body : dict)
| CallDelete (userKey : value).

(** [order_by("name")]: a stable insertion sort on the mapping name. *)
Fixpoint insert_by_name (m : PropertyMapping) (ms : list PropertyMapping)
  : list PropertyMapping :=
  match ms with
  | [] => [m]
  | m' :: ms' =>
      if String.leb (pm_name m) (pm_name m') then m :: m' :: ms'
      else m' :: insert_by_name m ms'
  end.

Definition order_by_name (ms : list PropertyMapping) : list PropertyMapping :=
  fold_right insert_by_name [] ms.

(** Modelled from the spec: [delete_none_values] of
    [authentik.policies.utils], which the client imports: "strip all
    fields whose value is null/absent before returning".  Only the
    fields of the document itself are looked at. *)
Definition delete_none_values (d : dict) : dict :=
  filter (fun kv => negb (is_none (snd kv))) d.

(* ================================================================= *)
(** ** The world and the monad *)

Section Client.

(** The state of the remote directory, whatever the external system is. *)
Variable R : Type.

Record World : Type := mkWorld {
  links : list LinkRecord;
  events : list Event;
  remote : R;
  calls : list call
}.

Definition M (A : Type) : Type := World -> outcome A * World.

Definition ret {A} (a : A) : M A := fun w => (Returns a, w).

Definition raise {A} (e : exn) : M A := fun w => (Raises e, w).

Definition bind {A B} (m : M A) (k : A -> M B) : M B :=
  fun w =>
    match m w with
    | (Returns a, w') => k a w'
    | (Raises e, w') => (Raises e, w')
    end.

Definition lift {A} (o : outcome A) : M A := fun w => (o, w).

(** [try: body / except ...: handler / else: orelse].  [handler e] is
    [None] when no [except] clause matches [e]. *)
Definition try_except_else {A B} (body : M A)
    (handler : exn -> option (M B)) (orelse : A -> M B) : M B :=
  fun w =>
    match body w with
    | (Returns a, w') => orelse a w'
    | (Raises e, w') =>
        match handler e with
        | Some h => h w'
        | None => (Raises e, w')
        end
    end.

Definition try_except {A} (body : M A) (handler : exn -> option (M A)) : M A :=
  try_except_else body handler ret.

(** [with transaction.atomic():] an exception leaving the block rolls
    the local tables back; what was sent to the remote stays sent. *)
Definition atomic {A} (body : M A) : M A :=
  fun w =>
    match body w with
    | (Returns a, w') => (Returns a, w')
    | (Raises e, w') =>
        (Raises e,
         mkWorld (links w) (events w) (remote w') (calls w'))
    end.

End Client.

Arguments mkWorld {R} _ _ _ _.
Arguments ret {R A} a _.
Arguments raise {R A} e _.
Arguments lift {R A} o _.

Declare Scope sync_scope.
Delimit Scope sync_scope with sync.
Notation "x <- m ;; k" := (bind m (fun x => k))
  (at level 61, m at next level, right associativity) : sync_scope.
Notation "m ;;; k" := (bind m (fun _ => k))
  (at level 61, right associativity) : sync_scope.

(* ================================================================= *)
(** ** The directory boundary *)

(** What [self._request(self.directory_service.users().<op>(...))] does
    for each operation: it answers with the response or raises one of
    the sync exceptions, and moves the remote state.  [_request] and the
    transport live in the base client. *)
Record DirectoryClient (R : Type) : Type := mkDirectory {
  users_insert : dict -> R -> outcome value * R;
  users_update : value -> dict -> R -> outcome value * R;
  users_delete : value -> R -> outcome value * R
}.

(* ================================================================= *)
(** ** GoogleWorkspaceUserClient *)

Section GoogleWorkspaceUserClient.

Local Open Scope sync_scope.

Variable R : Type.

(** [self.provider] and the rows of [self.provider.property_mappings]. *)
Variable provider : Provider.
Variable property_mappings : list PropertyMapping.

(** [self._request] over [self.directory_service]. *)
Variable directory : DirectoryClient R.

(** [self.check_email_valid] of the base client on its arguments: [None] when
    every address passes, otherwise the exception it raises. *)
Variable check_email_valid : list value -> option exn.

(** [exception_to_string] of [authentik.lib.utils.errors]. *)
Variable exception_to_string : exn -> string.

(** *** The link table *)

Definition link_matches (p : Provider) (u : User) (l : LinkRecord) : bool :=
  Nat.eqb (lr_provider l) (provider_pk p) && Nat.eqb (lr_user l) (user_pk u).

(** [GoogleWorkspaceProviderUser.objects.filter(provider=p, user=u).first()] *)
Definition objects_filter_first (p : Provider) (u : User)
  : M R (option LinkRecord) :=
  fun w => (Returns (find (link_matches p u) (links w)), w).

(** Whether a row of the table holds the identifier [i]. *)
Definition id_held (i : value) (ls : list LinkRecord) : bool :=
  existsb (fun l => value_eqb (lr_id l) i) ls.

(** [GoogleWorkspaceProviderUser.objects.create(provider=p, user=u, id=i)]:
    the insert of a row whose primary key another row holds is refused
    by the database, and Django raises [IntegrityError]. *)
Definition objects_create (p : Provider) (u : User) (i : value) : M R unit :=
  fun w =>
    if id_held i (links w) then (Raises IntegrityError, w)
    else
      (Returns tt,
       mkWorld (links w ++ [mkLink (provider_pk p) (user_pk u) i])
               (events w) (remote w) (calls w)).

(** [instance.delete()]: the row of that primary key goes. *)
Definition instance_delete (l : LinkRecord) : M R unit :=
  fun w =>
    (Returns tt,
     mkWorld (filter (fun l' => negb (value_eqb (lr_id l') (lr_id l))) (links w))
             (events w) (remote w) (calls w)).

(** [Event.new(action, message=..., mapping=...).save()] *)
Definition event_save (e : Event) : M R unit :=
  fun w =>
    (Returns tt,
     mkWorld (links w) (events w ++ [e]) (remote w) (calls w)).

(** How many link records (provider, user) has. *)
Definition count_links (p : Provider) (u : User) (ls : list LinkRecord) : nat :=
  List.length (filter (link_matches p u) ls).

(** *** Requests *)

Definition request (c : call) (op : R -> outcome value * R) : M R value :=
  fun w =>
    let (o, r') := op (remote w) in
    (o, mkWorld (links w) (events w) r' (calls w ++ [c])).

Definition request_insert (body : dict) : M R value :=
  request (CallInsert body) (users_insert directory body).

Definition request_update (userKey : value) (body : dict) : M R value :=
  request (CallUpdate userKey body) (users_update directory userKey body).

Definition request_delete (userKey : value) : M R value :=
  request (CallDelete userKey) (users_delete directory userKey).

(** *** to_schema *)

(** The loop of [to_schema] over the ordered mappings, [raw] being
    [raw_google_user]. *)
Fixpoint merge_mappings (obj : User) (ms : list PropertyMapping) (raw : dict)
  : M R dict :=
  match ms with
  | [] => ret raw
  | mapping :: ms' =>
      if negb (pm_is_google mapping) then merge_mappings obj ms' raw
      else
        match evaluate mapping obj provider with
        | Returns VNone => merge_mappings obj ms' raw
        | Returns value0 => merge_mappings obj ms' (merge_in_place raw value0)
        | Raises (PropertyMappingExpressionException msg as exc)
        | Raises (ValueError msg as exc) =>
            event_save
              (mkEvent "configuration_error"
                 ("Failed to evaluate property-mapping "
                    ++ exception_to_string exc)
                 (pm_name mapping)) ;;;
            raise (StopSync exc (Some (pm_name mapping)))
        | Raises e => raise e
        end
  end.

Definition to_schema (obj : User) : M R dict :=
  raw_google_user <- merge_mappings obj (order_by_name property_mappings) [] ;;
  match raw_google_user with
  | [] => raise (StopSync (ValueError "No user mappings configured") None)
  | _ =>
      ret (delete_none_values
             (if dict_contains "primaryEmail" raw_google_user
              then raw_google_user
              else dict_set "primaryEmail" (VStr (email obj)) raw_google_user))
  end.

(** The argument list of the [check_email_valid] call:
    [google_user["primaryEmail"]] and then the unpacked
    [[x["address"] for x in google_user.get("emails", [])]], evaluated
    left to right. *)
Definition email_arguments (google_user : dict) : outcome (list value) :=
  match subscript (VDict google_user) "primaryEmail" with
  | Raises e => Raises e
  | Returns primary =>
      match iterate (match dict_get "emails" google_user with
                     | Some v => v
                     | None => VList []
                     end) with
      | Raises e => Raises e
      | Returns xs =>
          match addresses xs with
          | Raises e => Raises e
          | Returns rest => Returns (primary :: rest)
          end
      end
  end.

Definition call_check_email_valid (google_user : dict) : M R unit :=
  args <- lift (email_arguments google_user) ;;
  match check_email_valid args with
  | Some e => raise e
  | None => ret tt
  end.

(** *** _create, _update, write, delete *)

Definition _create (user : User) : M R unit :=
  google_user <- to_schema user ;;
  call_check_email_valid google_user ;;;
  atomic
    (try_except_else (request_insert google_user)
       (fun exc =>
          match exc with
          | ObjectExistsSyncException =>
              Some (objects_create provider user (VStr (email user)))
          | TransientSyncException => Some (raise exc)
          | _ => None
          end)
       (fun response =>
          i <- lift (subscript response "primaryEmail") ;;
          objects_create provider user i)).

Definition _update (user : User) (connection : LinkRecord) : M R unit :=
  google_user <- to_schema user ;;
  call_check_email_valid google_user ;;;
  request_update (lr_id connection) google_user ;;;
  ret tt.

Definition write (obj : User) : M R unit :=
  google_user <- objects_filter_first provider obj ;;
  match google_user with
  | None => _create obj
  | Some google_user =>
      try_except (_update obj google_user)
        (fun exc =>
           match exc with
           | NotFoundSyncException =>
               Some (instance_delete google_user ;;; _create obj)
           | _ => None
           end)
  end.

Definition delete (obj : User) : M R value :=
  google_user <- objects_filter_first provider obj ;;
  match google_user with
  | None => ret VNone
  | Some google_user =>
      atomic
        (response <- request_delete (lr_id google_user) ;;
         instance_delete google_user ;;;
         ret response)
  end.

(** The call gets as far as the directory with [doc]: the schema is
    built and its addresses pass [check_email_valid]. *)
Definition reaches_directory (obj : User) (doc : dict) (w : World R) : Prop :=
  to_schema obj w = (Returns doc, w) /\
  exists args,
    email_arguments doc = Returns args /\ check_email_valid args = None.

End GoogleWorkspaceUserClient.

Arguments to_schema {R} provider property_mappings exception_to_string obj _.
Arguments merge_mappings {R} provider exception_to_string obj ms raw _.
Arguments _create {R} provider property_mappings directory
  check_email_valid exception_to_string user _.
Arguments _update {R} provider property_mappings directory
  check_email_valid exception_to_string user connection _.
Arguments write {R} provider property_mappings directory
  check_email_valid exception_to_string obj _.
Arguments delete {R} provider directory obj _.
Arguments call_check_email_valid {R} check_email_valid google_user _.
Arguments reaches_directory {R} provider property_mappings
  check_email_valid exception_to_string obj doc w.

(* ================================================================= *)
(** ** Directories to run the client against *)

(** A directory that answers every insert, update and delete the same
    way, whatever it is sent. *)
Definition fixed_directory (ins upd del : outcome value)
  : DirectoryClient unit :=
  mkDirectory
    (fun _ r => (ins, r))
    (fun _ _ r => (upd, r))
    (fun _ r => (del, r)).

Fixpoint mem_string (k : string) (ks : list string) : bool :=
  match ks with
  | [] => false
  | k' :: ks' => String.eqb k k' || mem_string k ks'
  end.

(** A directory that keeps the set of primary addresses it holds:
    inserting a held address is a conflict, updating or deleting an
    address it does not hold is a miss. *)
Definition memory_directory : DirectoryClient (list string) :=
  mkDirectory
    (fun body r =>
       match dict_get "primaryEmail" body with
       | Some (VStr k) =>
           if mem_string k r then (Raises ObjectExistsSyncException, r)
           else (Returns (VDict body), k :: r)
       | _ => (Raises (StopSync (ValueError "Invalid Input") None), r)
       end)
    (fun userKey body r =>
       match userKey with
       | VStr k =>
           if mem_string k r then (Returns (VDict body), r)
           else (Raises NotFoundSyncException, r)
       | _ => (Raises NotFoundSyncException, r)
       end)
    (fun userKey r =>
       match userKey with
       | VStr k =>
           if mem_string k r
           then (Returns VNone, filter (fun k' => negb (String.eqb k k')) r)
           else (Raises NotFoundSyncException, r)
       | _ => (Raises NotFoundSyncException, r)
       end).

(** Sample data. *)
Definition google : Provider := mkProvider 1 "google".

Definition bob : User := mkUser 7 "bob" "bob@example.com".

Definition constant_mapping (name : string) (v : value) : PropertyMapping :=
  mkMapping name true (fun _ _ => Returns v).

Definition accept_all (_ : list value) : option exn := None.

Definition no_text (_ : exn) : string := EmptyString.

Definition empty_world {R} (r : R) : World R := mkWorld [] [] r [].

(** Two mappings listed against the order of their names. *)
Definition name_mappings : list PropertyMapping :=
  [constant_mapping "20-override" (VDict [("name", VStr "B")]);
   constant_mapping "10-base" (VDict [("name", VStr "A")])].

Definition name_doc : dict :=
  [("name", VStr "B"); ("primaryEmail", VStr "bob@example.com")].

(** One mapping that sets [primaryEmail] to [None]. *)
Definition null_email_mappings : list PropertyMapping :=
  [constant_mapping "user"
     (VDict [("primaryEmail", VNone); ("nickName", VStr "Bob")])].

Definition bob_link : LinkRecord := mkLink 1 7 (VStr "bob@example.com").

(** A world in which bob is linked. *)
Definition linked_world {R} (r : R) : World R := mkWorld [bob_link] [] r [].

(** Directories that fail the insert, the update having found nothing. *)
Definition busy_directory : DirectoryClient unit :=
  fixed_directory (Raises TransientSyncException)
    (Raises NotFoundSyncException) (Returns VNone).

Definition lost_directory : DirectoryClient unit :=
  fixed_directory (Raises NotFoundSyncException)
    (Raises NotFoundSyncException) (Raises NotFoundSyncException).

Definition refusing_directory : DirectoryClient unit :=
  fixed_directory (Raises (StopSync (ValueError "Invalid Input") None))
    (Returns VNone) (Returns VNone).

(** More sample data: mappings that contribute nothing, that fail, and
    that list addresses; a second user; a check that rejects. *)
Definition silent_mapping : PropertyMapping :=
  constant_mapping "15-none" VNone.

Definition foreign_mapping : PropertyMapping :=
  mkMapping "05-scim" false (fun _ _ => Returns (VDict [("name", VStr "Z")])).

Definition failing_mapping : PropertyMapping :=
  mkMapping "15-broken" true (fun _ _ => Raises (ValueError "bad value")).

Definition crashing_mapping : PropertyMapping :=
  mkMapping "15-broken" true (fun _ _ => Raises (KeyError "attributes")).

Definition alias_mappings : list PropertyMapping :=
  [constant_mapping "user"
     (VDict [("primaryEmail", VStr "robert@example.com");
             ("nickName", VNone)])].

Definition emails_mappings : list PropertyMapping :=
  [constant_mapping "user"
     (VDict [("emails",
              VList [VDict [("address", VStr "bob@example.com")];
                     VDict [("type", VStr "work")]])])].

Definition emails_doc : dict :=
  [("emails",
    VList [VDict [("address", VStr "bob@example.com")];
           VDict [("type", VStr "work")]]);
   ("primaryEmail", VStr "bob@example.com")].

Definition reject_all (_ : list value) : option exn :=
  Some (OtherException "BadRequestSyncException").

Definition alice_link : LinkRecord := mkLink 1 8 (VStr "alice@example.com").

(** Alice and bob are linked, and the directory has lost bob. *)
Definition two_links_world : World (list string) :=
  mkWorld [alice_link; bob_link] [] ["alice@example.com"] [].





Definition down_directory : DirectoryClient unit :=
  fixed_directory (Raises TransientSyncException)
    (Raises TransientSyncException) (Raises TransientSyncException).

(** The world after bob was created in the empty memory directory. *)
Definition created_world : World (list string) :=
  mkWorld [bob_link] [] ["bob@example.com"] [CallInsert name_doc].

(* ================================================================= *)
(** ** Outposts

    [passbook/outposts/models.py]: the objects an outpost needs to read,
    and the service user that is given the permissions to read them. *)

Module Outposts.

(** A model instance as the permission code sees it: [_meta.app_label],
    [_meta.model_name] and the row it is. *)
Record ModelObject : Type := mkObject {
  app_label : string;
  model_name : string;
  object_pk : string
}.

Definition object_eqb (a b : ModelObject) : bool :=
  String.eqb (app_label a) (app_label b)
  && String.eqb (model_name a) (model_name b)
  && String.eqb (object_pk a) (object_pk b).

(** A row of [Provider.objects.filter(outpost=self).select_subclasses()]:
    the provider, whether it is an [OutpostModel], and what its
    [get_required_objects()] returns if it is. *)
Record Provider : Type := mkProvider {
  provider_object : ModelObject;
  is_OutpostModel : bool;
  provider_required_objects : list ModelObject
}.

(** [OutpostModel.get_required_objects], as inherited. *)
Definition OutpostModel_get_required_objects (self : ModelObject)
  : list ModelObject := [self].

Record Outpost : Type := mkOutpost {
  uuid_hex : string;
  name : string;
  outpost_object : ModelObject
}.

Record User : Type := mkUser {
  user_pk : nat;
  username : string;
  usable_password : bool
}.

(** A row written by guardian's [assign_perm]. *)
Record Permission : Type := mkPermission {
  perm : string;
  perm_user : nat;
  perm_object : ModelObject
}.

Definition permission_eqb (a b : Permission) : bool :=
  String.eqb (perm a) (perm b)
  && Nat.eqb (perm_user a) (perm_user b)
  && object_eqb (perm_object a) (perm_object b).

(** The tables: users, object permissions, and the providers of each
    outpost by its uuid. *)
Record DB : Type := mkDB {
  users : list User;
  next_user_pk : nat;
  permissions : list Permission;
  outpost_providers : list (string * Provider)
}.

(** [f"outpost_{self.uuid.hex}_health"] *)
Definition health_cache_key (self : Outpost) : string :=
  "outpost_" ++ uuid_hex self ++ "_health".

(** [f"pb-outpost-{self.uuid.hex}"] *)
Definition service_username (self : Outpost) : string :=
  "pb-outpost-" ++ uuid_hex self.

(** The providers attached to the outpost, as the table holds them. *)
Definition attached_providers (self : Outpost) (db : DB) : list Provider :=
  map snd
    (filter (fun row => String.eqb (fst row) (uuid_hex self))
       (outpost_providers db)).

Section Database.

(** The order in which the database hands back the rows of a query
    that asks for none. *)
Variable query_order : list Provider -> list Provider.

(** [Provider.objects.filter(outpost=self)], which has no [order_by]. *)
Definition providers_of (self : Outpost) (db : DB) : list Provider :=
  query_order (attached_providers self db).

(** The loop of [get_required_objects] over [objects]. *)
Definition add_required (objects : list ModelObject) (provider : Provider)
  : list ModelObject :=
  if is_OutpostModel provider
  then objects ++ provider_required_objects provider
  else objects ++ [provider_object provider].

Definition get_required_objects (self : Outpost) (db : DB)
  : list ModelObject :=
  fold_left add_required (providers_of self db) [outpost_object self].

(** [assign_perm(perm, user, obj)]: guardian gets or creates the row. *)
Definition assign_perm (p : string) (user : User) (obj : ModelObject)
    (db : DB) : DB :=
  let row := mkPermission p (user_pk user) obj in
  if existsb (permission_eqb row) (permissions db) then db
  else mkDB (users db) (next_user_pk db) (permissions db ++ [row])
            (outpost_providers db).

(** [f"{model._meta.app_label}.view_{model._meta.model_name}"] *)
Definition view_permission (model : ModelObject) : string :=
  app_label model ++ ".view_" ++ model_name model.

(** [User.objects.create(username=...)]: user names are unique, and
    the insert of a second row of one name raises [IntegrityError]. *)
Definition objects_create (name0 : string) (db : DB) : outcome User * DB :=
  if existsb (fun row => String.eqb (username row) name0) (users db)
  then (Raises IntegrityError, db)
  else
    let user := mkUser (next_user_pk db) name0 true in
    (Returns user,
     mkDB (users db ++ [user]) (S (next_user_pk db)) (permissions db)
          (outpost_providers db)).

(** [user.set_unusable_password()] *)
Definition set_unusable_password (user : User) : User :=
  mkUser (user_pk user) (username user) false.

(** [user.save()] *)
Definition save (user : User) (db : DB) : DB :=
  mkDB (map (fun row => if Nat.eqb (user_pk row) (user_pk user) then user
                        else row) (users db))
       (next_user_pk db) (permissions db) (outpost_providers db).

Definition _create_user (self : Outpost) (db : DB) : outcome User * DB :=
  match objects_create (service_username self) db with
  | (Raises e, db1) => (Raises e, db1)
  | (Returns user, db1) =>
      let user := set_unusable_password user in
      let db2 := save user db1 in
      (Returns user,
       fold_left
         (fun db' model => assign_perm (view_permission model) user model db')
         (get_required_objects self db2) db2)
  end.

(** The [user] property. *)
Definition user (self : Outpost) (db : DB) : outcome User * DB :=
  match filter (fun row => String.eqb (username row) (service_username self))
          (users db) with
  | first :: _ => (Returns first, db)
  | [] => _create_user self db
  end.

End Database.

(** A database that hands the rows back last first. *)
Definition last_first (ps : list Provider) : list Provider := rev ps.

(** Sample data. *)
Definition proxy_provider : Provider :=
  mkProvider (mkObject "passbook_providers_proxy" "proxyprovider" "3") true
    [mkObject "passbook_providers_proxy" "proxyprovider" "3"].

Definition plain_provider : Provider :=
  mkProvider (mkObject "passbook_core" "provider" "4") false [].

Definition edge : Outpost :=
  mkOutpost "0af1" "edge" (mkObject "passbook_outposts" "outpost" "0af1").

Definition edge_db : DB :=
  mkDB [] 0 []
    [("0af1", proxy_provider); ("77c2", plain_provider);
     ("0af1", plain_provider)].

End Outposts.

(** The keys of a dictionary written out are distinct. *)
Ltac distinct_keys :=
  repeat (constructor; [simpl; intuition discriminate|]); constructor.

(* ================================================================= *)
(** ** Dictionaries *)

Lemma value_strategy_dict (b n : dict) :
  value_strategy (VDict b) (VDict n) = VDict (strategy_merge b n).
Proof. reflexivity. Qed.

Lemma dict_get_In_keys (k : string) (d : dict) (v : value) :
  dict_get k d = Some v -> In k (keys d).
Proof.
  induction d as [|[k' v'] d IH]; simpl; [discriminate|].
  destruct (String.eqb_spec k k') as [->|Hne]; auto.
Qed.

Lemma dict_get_not_In (k : string) (d : dict) :
  ~ In k (keys d) -> dict_get k d = None.
Proof.
  induction d as [|[k' v'] d IH]; simpl; [reflexivity|].
  intros Hn. destruct (String.eqb_spec k k') as [->|Hne]; [tauto|].
  apply IH. tauto.
Qed.

Lemma keys_dict_set (k : string) (v : value) (d : dict) :
  keys (dict_set k v d) = if dict_contains k d then keys d else keys d ++ [k].
Proof.
  unfold dict_contains.
  induction d as [|[k' v'] d IH]; simpl; [reflexivity|].
  destruct (String.eqb k k'); simpl; [reflexivity|].
  rewrite IH. destruct (dict_get k d); reflexivity.
Qed.

Lemma dict_set_NoDup (k : string) (v : value) (d : dict) :
  NoDup (keys d) -> NoDup (keys (dict_set k v d)).
Proof.
  induction d as [|[k' v'] d IH]; simpl; intros Hd.
  - constructor; [simpl; tauto | constructor].
  - inversion Hd as [|? ? Hnin Hd']; subst.
    destruct (String.eqb_spec k k') as [->|Hne]; simpl; [assumption|].
    constructor; [|auto].
    rewrite keys_dict_set. destruct (dict_contains k d); [assumption|].
    rewrite in_app_iff. simpl. intros [H|[H|[]]]; [tauto | congruence].
Qed.

(** Merging into a dictionary never duplicates one of its keys, whatever
    is merged in. *)
Lemma strategy_merge_NoDup (n b : dict) :
  NoDup (keys b) -> NoDup (keys (strategy_merge b n)).
Proof.
  revert b. induction n as [|[k v] n IH]; simpl; intros b Hb; [assumption|].
  apply IH. destruct (dict_get k b); apply dict_set_NoDup; assumption.
Qed.

Lemma merge_in_place_NoDup (raw : dict) (v : value) :
  NoDup (keys raw) -> NoDup (keys (merge_in_place raw v)).
Proof.
  destruct v; simpl; auto using strategy_merge_NoDup.
Qed.

Lemma delete_none_values_absent (k : string) (d : dict) :
  ~ In k (keys d) -> dict_get k (delete_none_values d) = None.
Proof.
  intros Hn. apply dict_get_not_In. intros Hin. apply Hn.
  unfold delete_none_values, keys in *.
  apply in_map_iff in Hin as [kv [Hk Hf]].
  apply filter_In in Hf as [Hf _].
  apply in_map_iff. eauto.
Qed.

(** A field that is present with value [None] is gone after stripping. *)
Lemma delete_none_values_strips (k : string) (d : dict) :
  NoDup (keys d) -> dict_get k d = Some VNone ->
  dict_get k (delete_none_values d) = None.
Proof.
  induction d as [|[k' v'] d IH]; simpl; [discriminate|].
  intros Hd Hg. inversion Hd as [|? ? Hnin Hd']; subst.
  destruct (String.eqb_spec k k') as [->|Hne].
  - injection Hg as ->. simpl.
    apply (delete_none_values_absent _ _ Hnin).
  - destruct (is_none v'); simpl.
    + apply IH; assumption.
    + destruct (String.eqb_spec k k'); [contradiction|]. apply IH; assumption.
Qed.

(* ================================================================= *)
(** ** The schema builder *)

Section Schema.

Variable R : Type.
Variable provider : Provider.
Variable exception_to_string : exn -> string.

Implicit Types (w : World R) (obj : User) (raw doc : dict).

(** A run of the mapping loop that returns saved no event, and returns
    the same document from every world. *)
Lemma merge_mappings_Returns obj ms : forall raw w d w',
  merge_mappings provider exception_to_string obj ms raw w = (Returns d, w') ->
  w' = w /\
  forall w0 : World R,
    merge_mappings provider exception_to_string obj ms raw w0 = (Returns d, w0).
Proof.
  induction ms as [|m ms IH]; simpl; intros raw w d w' H.
  - unfold ret in *. injection H as <- <-. auto.
  - destruct (pm_is_google m); simpl in *; [|eauto].
    destruct (evaluate m obj provider) as [v|e].
    + destruct v; eauto.
    + destruct e; try (unfold raise in H; discriminate);
        unfold bind, event_save, raise in H; discriminate.
Qed.

(** The accumulated document has no duplicate key. *)
Lemma merge_mappings_NoDup obj ms : forall raw w d w',
  NoDup (keys raw) ->
  merge_mappings provider exception_to_string obj ms raw w = (Returns d, w') ->
  NoDup (keys d).
Proof.
  induction ms as [|m ms IH]; simpl; intros raw w d w' Hraw H.
  - unfold ret in H. injection H as <- _. assumption.
  - destruct (pm_is_google m); simpl in *; [|eauto].
    destruct (evaluate m obj provider) as [v|e].
    + destruct v; eauto using strategy_merge_NoDup.
    + destruct e; try (unfold raise in H; discriminate);
        unfold bind, event_save, raise in H; discriminate.
Qed.

Variable property_mappings : list PropertyMapping.

Lemma to_schema_Returns obj w d w' :
  to_schema provider property_mappings exception_to_string obj w
    = (Returns d, w') ->
  w' = w /\
  forall w0 : World R,
    to_schema provider property_mappings exception_to_string obj w0
      = (Returns d, w0).
Proof.
  unfold to_schema, bind. intros H.
  destruct (merge_mappings provider exception_to_string obj
              (order_by_name property_mappings) [] w) as [[raw|e] w1] eqn:Hm;
    [|discriminate].
  destruct (merge_mappings_Returns _ _ _ _ Hm) as [-> Hall].
  destruct raw as [|kv raw]; [unfold raise in H; discriminate|].
  unfold ret in H. injection H as <- <-. split; [reflexivity|].
  intros w0. rewrite Hall. reflexivity.
Qed.

(** What [to_schema] returns once the loop has produced [raw]. *)
Lemma to_schema_of_raw obj w raw :
  merge_mappings provider exception_to_string obj
    (order_by_name property_mappings) [] w = (Returns raw, w) ->
  raw <> [] ->
  to_schema provider property_mappings exception_to_string obj w
    = (Returns
         (delete_none_values
            (if dict_contains "primaryEmail" raw then raw
             else dict_set "primaryEmail" (VStr (email obj)) raw)), w).
Proof.
  intros Hm Hne. unfold to_schema, bind. rewrite Hm.
  destruct raw; [contradiction|reflexivity].
Qed.

End Schema.

(* ================================================================= *)
(** ** The link table *)

Lemma value_eqb_refl (v : value) : value_eqb v v = true.
Proof.
  induction v as [| | | |xs Hxs|kvs Hkvs] using value_induction; simpl;
    auto using Z.eqb_refl, String.eqb_refl.
  - now destruct b.
  - induction Hxs as [|x xs Hx _ IH]; simpl; [reflexivity|].
    now rewrite Hx, IH.
  - induction Hkvs as [|[k x] kvs Hx _ IH]; simpl; [reflexivity|].
    simpl in Hx. now rewrite String.eqb_refl, Hx, IH.
Qed.

Lemma value_eqb_eq (a : value) : forall b, value_eqb a b = true -> a = b.
Proof.
  induction a as [| | | |xs Hxs|kvs Hkvs] using value_induction;
    intros [| | | |ys|ys]; simpl; try discriminate; intros Heq.
  - reflexivity.
  - f_equal. now apply Bool.eqb_prop.
  - f_equal. now apply Z.eqb_eq.
  - f_equal. now apply String.eqb_eq.
  - f_equal. revert ys Heq.
    induction Hxs as [|x xs Hx _ IH]; intros [|y ys]; simpl;
      try discriminate; [reflexivity|].
    intros Heq. apply andb_prop in Heq as [H1 H2].
    f_equal; auto.
  - f_equal. revert ys Heq.
    induction Hkvs as [|[k x] kvs Hx _ IH]; intros [|[k' y] ys]; simpl;
      try discriminate; [reflexivity|].
    intros Heq. apply andb_prop in Heq as [H12 H3].
    apply andb_prop in H12 as [H1 H2].
    apply String.eqb_eq in H1. simpl in Hx. apply Hx in H2.
    subst. f_equal. auto.
Qed.

(** An identifier no row holds is the identifier of no row. *)
Lemma id_held_false (i : value) (ls : list LinkRecord) :
  id_held i ls = false <-> Forall (fun l => lr_id l <> i) ls.
Proof.
  unfold id_held. induction ls as [|l ls IH]; simpl.
  - split; [constructor | reflexivity].
  - rewrite orb_false_iff, IH. split.
    + intros [He Hall]. constructor; [|assumption].
      intros <-. now rewrite value_eqb_refl in He.
    + intros Hall. inversion Hall as [|? ? Hne Hall']; subst.
      split; [|assumption].
      destruct (value_eqb (lr_id l) i) eqn:He; [|reflexivity].
      apply value_eqb_eq in He. contradiction.
Qed.

(** Deleting by an identifier no row holds removes nothing. *)
Lemma filter_not_held (i : value) (ls : list LinkRecord) :
  id_held i ls = false ->
  filter (fun l' => negb (value_eqb (lr_id l') i)) ls = ls.
Proof.
  unfold id_held. induction ls as [|l ls IH]; simpl; [reflexivity|].
  intros H. apply orb_false_iff in H as [He Hrest].
  rewrite He. simpl. now rewrite IH.
Qed.

Section LinkTable.

Variable p : Provider.
Variable u : User.

Lemma link_matches_own (i : value) :
  link_matches p u (mkLink (provider_pk p) (user_pk u) i) = true.
Proof. unfold link_matches; simpl. now rewrite !Nat.eqb_refl. Qed.

Lemma count_links_app (ls ls' : list LinkRecord) :
  count_links p u (ls ++ ls') = count_links p u ls + count_links p u ls'.
Proof. unfold count_links. now rewrite filter_app, length_app. Qed.

Lemma find_None_filter (ls : list LinkRecord) :
  find (link_matches p u) ls = None -> filter (link_matches p u) ls = [].
Proof.
  induction ls as [|l ls IH]; simpl; [reflexivity|].
  destruct (link_matches p u l); [discriminate | exact IH].
Qed.


Lemma find_None_count (ls : list LinkRecord) :
  find (link_matches p u) ls = None -> count_links p u ls = 0.
Proof. intros H. unfold count_links. now rewrite find_None_filter. Qed.

Lemma find_after_create (ls : list LinkRecord) (l : LinkRecord) :
  find (link_matches p u) ls = None -> link_matches p u l = true ->
  find (link_matches p u) (ls ++ [l]) = Some l.
Proof.
  intros Hn Hl. induction ls as [|l' ls IH]; simpl in *.
  - now rewrite Hl.
  - destruct (link_matches p u l'); [discriminate | auto].
Qed.

Lemma filter_nil_filter (f g : LinkRecord -> bool) (ls : list LinkRecord) :
  filter f ls = [] -> filter f (filter g ls) = [].
Proof.
  induction ls as [|l ls IH]; simpl; [reflexivity|].
  destruct (f l) eqn:Hf; [discriminate|]. intros H.
  destruct (g l); simpl; [rewrite Hf|]; auto.
Qed.

(** When (provider, user) has one link record, deleting the instance
    the lookup returned leaves none. *)
Lemma delete_only_link (ls : list LinkRecord) (l : LinkRecord) :
  find (link_matches p u) ls = Some l -> count_links p u ls = 1 ->
  filter (link_matches p u)
    (filter (fun l' => negb (value_eqb (lr_id l') (lr_id l))) ls) = [].
Proof.
  unfold count_links.
  induction ls as [|l' ls IH]; simpl; [discriminate|].
  destruct (link_matches p u l') eqn:Hm.
  - intros [= ->] Hc. rewrite value_eqb_refl. simpl.
    apply filter_nil_filter. apply length_zero_iff_nil.
    simpl in Hc. lia.
  - intros Hf Hc.
    destruct (negb (value_eqb (lr_id l') (lr_id l))); simpl;
      [rewrite Hm|]; auto.
Qed.

End LinkTable.

(* ================================================================= *)
(** ** The sync client *)

Section Sync.

Variable R : Type.
Variable provider : Provider.
Variable property_mappings : list PropertyMapping.
Variable directory : DirectoryClient R.
Variable check_email_valid : list value -> option exn.
Variable exception_to_string : exn -> string.

Implicit Types (w : World R) (u : User) (doc : dict) (l : LinkRecord).

Local Abbreviation reaches u doc w :=
  (reaches_directory provider property_mappings check_email_valid
     exception_to_string u doc w).
Local Abbreviation create u :=
  (_create provider property_mappings directory check_email_valid
     exception_to_string u).
Local Abbreviation update u l :=
  (_update provider property_mappings directory check_email_valid
     exception_to_string u l).
Local Abbreviation write_ u :=
  (write provider property_mappings directory check_email_valid
     exception_to_string u).


Lemma call_check_email_valid_passes u doc w w0 :
  reaches u doc w -> call_check_email_valid check_email_valid doc w0 = (Returns tt, w0).
Proof.
  intros [_ [args [Ha Hc]]].
  unfold call_check_email_valid, bind, lift. now rewrite Ha, Hc.
Qed.

(** On the create path the call depends on the directory's answer
    alone. *)
Lemma _create_at_directory u doc w :
  reaches u doc w ->
  create u w =
    match users_insert directory doc (remote w) with
    | (Returns response, r') =>
        match subscript response "primaryEmail" with
        | Returns i =>
            if id_held i (links w)
            then
              (Raises IntegrityError,
               mkWorld (links w) (events w) r'
                       (calls w ++ [CallInsert doc]))
            else
              (Returns tt,
               mkWorld (links w ++ [mkLink (provider_pk provider)
                                      (user_pk u) i])
                       (events w) r'
                       (calls w ++ [CallInsert doc]))
        | Raises e =>
            (Raises e,
             mkWorld (links w) (events w) r'
                     (calls w ++ [CallInsert doc]))
        end
    | (Raises ObjectExistsSyncException, r') =>
        if id_held (VStr (email u)) (links w)
        then
          (Raises IntegrityError,
           mkWorld (links w) (events w) r'
                   (calls w ++ [CallInsert doc]))
        else
          (Returns tt,
           mkWorld (links w ++ [mkLink (provider_pk provider)
                                  (user_pk u) (VStr (email u))])
                   (events w) r'
                   (calls w ++ [CallInsert doc]))
    | (Raises e, r') =>
        (Raises e,
         mkWorld (links w) (events w) r'
                 (calls w ++ [CallInsert doc]))
    end.
Proof.
  intros Hr. pose proof Hr as [Hs _].
  unfold _create, bind at 1. rewrite Hs.
  unfold bind at 1. rewrite (call_check_email_valid_passes w Hr).
  unfold atomic, try_except_else, request_insert, request.
  destruct (users_insert directory doc (remote w)) as [[response|e] r'].
  - unfold bind, lift, objects_create. simpl.
    destruct (subscript response "primaryEmail") as [i|e]; [|reflexivity].
    destruct (id_held i (links w)); reflexivity.
  - destruct e; try reflexivity.
    unfold objects_create. simpl.
    destruct (id_held (VStr (email u)) (links w)); reflexivity.
Qed.



Lemma write_without_link u w :
  find (link_matches provider u) (links w) = None ->
  write_ u w = create u w.
Proof.
  intros Hf. unfold write, bind, objects_filter_first. now rewrite Hf.
Qed.


(** C8: when the create is answered [Transient], [_create] raises that
    very exception and the link table is as it was; so does [write] for
    a user without a link record. *)
Theorem create_Transient_propagates u doc w r' :
  reaches u doc w ->
  users_insert directory doc (remote w) = (Raises TransientSyncException, r') ->
  exists w',
    create u w = (Raises TransientSyncException, w') /\
    links w' = links w /\
    events w' = events w /\
    (find (link_matches provider u) (links w) = None ->
     write_ u w = (Raises TransientSyncException, w')).
Proof.
  intros Hr Hi.
  eexists. split; [rewrite (_create_at_directory Hr), Hi; reflexivity|].
  simpl. repeat split.
  intros Hf. rewrite (write_without_link _ _ Hf).
  now rewrite (_create_at_directory Hr), Hi.
Qed.

(** C9, as the code has it: an error of the create that is neither
    [ObjectExists] nor [Transient] reaches the caller as the exception
    it is (a [StopSync] as [StopSync]), and no link record is created. *)
Theorem create_other_error_propagates u doc w r' e :
  e <> ObjectExistsSyncException ->
  e <> TransientSyncException ->
  reaches u doc w ->
  users_insert directory doc (remote w) = (Raises e, r') ->
  exists w',
    create u w = (Raises e, w') /\
    links w' = links w /\
    (find (link_matches provider u) (links w) = None ->
     write_ u w = (Raises e, w')).
Proof.
  intros He _ Hr Hi.
  assert (Hc : create u w =
                 (Raises e, mkWorld (links w) (events w) r'
                              (calls w ++ [CallInsert doc]))).
  { rewrite (_create_at_directory Hr), Hi.
    destruct e; try reflexivity. contradiction. }
  eexists. split; [exact Hc|]. split; [reflexivity|].
  intros Hf. now rewrite (write_without_link _ _ Hf).
Qed.



(** C4, as the code has it: when the remote delete of a linked user is
    answered [NotFound], [delete] raises that exception to the caller
    and the link record stays. *)
Theorem delete_NotFound_raises u l w r' :
  find (link_matches provider u) (links w) = Some l ->
  users_delete directory (lr_id l) (remote w)
    = (Raises NotFoundSyncException, r') ->
  exists w',
    delete provider directory u w = (Raises NotFoundSyncException, w') /\
    links w' = links w /\
    find (link_matches provider u) (links w') = Some l.
Proof.
  intros Hf Hd.
  unfold delete, bind at 1, objects_filter_first. rewrite Hf.
  unfold atomic, bind at 1, request_delete, request. rewrite Hd.
  eexists. split; [reflexivity|]. simpl. auto.
Qed.

(** C10: when the mappings leave [primaryEmail] in the document with
    value [None], [to_schema] returns a document without that key, and
    [_create], [_update] and [write] raise [KeyError] on the subscript
    with the world untouched: nothing was sent to the directory. *)
Theorem null_primaryEmail_KeyError u raw w :
  merge_mappings provider exception_to_string u
    (order_by_name property_mappings) [] w = (Returns raw, w) ->
  dict_get "primaryEmail" raw = Some VNone ->
  exists doc,
    to_schema provider property_mappings exception_to_string u w
      = (Returns doc, w) /\
    dict_contains "primaryEmail" doc = false /\
    create u w = (Raises (KeyError "primaryEmail"), w) /\
    (forall l, update u l w = (Raises (KeyError "primaryEmail"), w)) /\
    write_ u w = (Raises (KeyError "primaryEmail"), w).
Proof.
  intros Hm Hg.
  assert (Hne : raw <> []) by (intros ->; discriminate).
  pose proof (to_schema_of_raw _ _ _ _ Hm Hne) as Hs.
  unfold dict_contains in Hs. rewrite Hg in Hs.
  assert (Hnd : NoDup (keys raw)).
  { apply (merge_mappings_NoDup provider exception_to_string u
             (order_by_name property_mappings) [] w (NoDup_nil _) Hm). }
  pose proof (delete_none_values_strips _ _ Hnd Hg) as Hd.
  assert (Hc : create u w = (Raises (KeyError "primaryEmail"), w)).
  { unfold _create, bind at 1. rewrite Hs.
    unfold bind at 1, call_check_email_valid, bind, lift, email_arguments.
    simpl. rewrite Hd. reflexivity. }
  assert (Hu : forall l, update u l w = (Raises (KeyError "primaryEmail"), w)).
  { intros l. unfold _update, bind at 1. rewrite Hs.
    unfold bind at 1, call_check_email_valid, bind, lift, email_arguments.
    simpl. rewrite Hd. reflexivity. }
  exists (delete_none_values raw).
  split; [exact Hs|]. split; [unfold dict_contains; now rewrite Hd|].
  split; [exact Hc|]. split; [exact Hu|].
  unfold write, bind at 1, objects_filter_first.
  destruct (find (link_matches provider u) (links w)) as [l|]; [|exact Hc].
  unfold try_except, try_except_else. now rewrite Hu.
Qed.

End Sync.

Section SchemaProperties.

Variable R : Type.
Variable provider : Provider.
Variable property_mappings : list PropertyMapping.
Variable exception_to_string : exn -> string.

Implicit Types (w : World R) (u : User).

(** C5, as the code has it: when the mappings together produce exactly
    the fragment [{"primaryEmail": None, "nickName": "Bob"}], [to_schema]
    returns [{"nickName": "Bob"}]: the key was present, so the default is
    not filled in, and the stripping then removes it.  That is not the
    document with [primaryEmail] set to the user's email. *)
Theorem null_primaryEmail_not_defaulted u w :
  merge_mappings provider exception_to_string u
    (order_by_name property_mappings) [] w
    = (Returns [("primaryEmail", VNone); ("nickName", VStr "Bob")], w) ->
  to_schema provider property_mappings exception_to_string u w
    = (Returns [("nickName", VStr "Bob")], w) /\
  ~ dict_equiv [("nickName", VStr "Bob")]
      [("nickName", VStr "Bob"); ("primaryEmail", VStr (email u))].
Proof.
  intros Hm. split.
  - unfold to_schema, bind. rewrite Hm. reflexivity.
  - intros He. specialize (He "primaryEmail"). discriminate.
Qed.

(** C6: with two mappings that come, in the order of their names, as one
    producing [{"name": "A"}] and then one producing [{"name": "B"}],
    the document [to_schema] returns has ["name"] equal to ["B"]. *)
Theorem later_mapping_wins u w m1 m2 :
  order_by_name property_mappings = [m1; m2] ->
  pm_is_google m1 = true ->
  pm_is_google m2 = true ->
  evaluate m1 u provider = Returns (VDict [("name", VStr "A")]) ->
  evaluate m2 u provider = Returns (VDict [("name", VStr "B")]) ->
  to_schema provider property_mappings exception_to_string u w
    = (Returns [("name", VStr "B"); ("primaryEmail", VStr (email u))], w) /\
  forall doc w',
    to_schema provider property_mappings exception_to_string u w
      = (Returns doc, w') ->
    dict_get "name" doc = Some (VStr "B").
Proof.
  intros Ho H1 H2 E1 E2.
  assert (Hs : to_schema provider property_mappings exception_to_string u w
               = (Returns [("name", VStr "B");
                           ("primaryEmail", VStr (email u))], w)).
  { unfold to_schema, bind. rewrite Ho. simpl.
    rewrite H1, H2, E1, E2. reflexivity. }
  split; [exact Hs|].
  intros doc w' Hd. rewrite Hs in Hd. injection Hd as <- _. reflexivity.
Qed.

End SchemaProperties.

(** C7: with no property mapping attached to the provider, [write]
    raises [StopSync] and leaves the world, the link table in
    particular, as it found it. *)
Theorem write_no_mappings_StopSync (R : Type) (provider : Provider)
    (directory : DirectoryClient R)
    (check_email_valid : list value -> option exn)
    (exception_to_string : exn -> string) (u : User) (w : World R) :
  exists e,
    write provider [] directory check_email_valid exception_to_string u w
      = (Raises e, w) /\
    is_StopSync e = true /\
    links (snd (write provider [] directory check_email_valid
                  exception_to_string u w)) = links w.
Proof.
  exists (StopSync (ValueError "No user mappings configured") None).
  assert (H : write provider [] directory check_email_valid
                exception_to_string u w
              = (Raises (StopSync (ValueError "No user mappings configured")
                           None), w)).
  { unfold write, bind, objects_filter_first.
    destruct (find (link_matches provider u) (links w)); reflexivity. }
  rewrite H. auto.
Qed.

(* ================================================================= *)
(** ** The theorems at work *)







Lemma delete_NotFound_raises_witness :
  exists w',
    delete google memory_directory bob (linked_world [])
      = (Raises NotFoundSyncException, w') /\
    links w' = [bob_link] /\
    find (link_matches google bob) (links w') = Some bob_link.
Proof.
  apply (@delete_NotFound_raises (list string) google memory_directory bob
           bob_link (linked_world []) []); reflexivity.
Defined.

Lemma null_primaryEmail_not_defaulted_witness :
  to_schema google null_email_mappings no_text bob (empty_world tt)
    = (Returns [("nickName", VStr "Bob")], empty_world tt) /\
  ~ dict_equiv [("nickName", VStr "Bob")]
      [("nickName", VStr "Bob"); ("primaryEmail", VStr "bob@example.com")].
Proof.
  apply (@null_primaryEmail_not_defaulted unit google null_email_mappings
           no_text bob (empty_world tt)).
  reflexivity.
Defined.

Lemma later_mapping_wins_witness :
  to_schema google name_mappings no_text bob (empty_world tt)
    = (Returns name_doc, empty_world tt) /\
  forall doc w',
    to_schema google name_mappings no_text bob (empty_world tt)
      = (Returns doc, w') ->
    dict_get "name" doc = Some (VStr "B").
Proof.
  apply (@later_mapping_wins unit google name_mappings no_text bob
           (empty_world tt)
           (constant_mapping "10-base" (VDict [("name", VStr "A")]))
           (constant_mapping "20-override" (VDict [("name", VStr "B")])));
    reflexivity.
Defined.

Lemma create_Transient_propagates_witness :
  exists w',
    _create google name_mappings busy_directory accept_all no_text bob
      (empty_world tt) = (Raises TransientSyncException, w') /\
    links w' = [] /\
    events w' = [] /\
    (find (link_matches google bob) (links (empty_world tt)) = None ->
     write google name_mappings busy_directory accept_all no_text bob
       (empty_world tt) = (Raises TransientSyncException, w')).
Proof.
  apply (@create_Transient_propagates unit google name_mappings
           busy_directory accept_all no_text bob name_doc (empty_world tt) tt).
  - split; [reflexivity|].
    exists [VStr "bob@example.com"]. split; reflexivity.
  - reflexivity.
Defined.

Lemma create_other_error_propagates_witness :
  exists w',
    _create google name_mappings refusing_directory accept_all no_text bob
      (empty_world tt)
      = (Raises (StopSync (ValueError "Invalid Input") None), w') /\
    links w' = [] /\
    (find (link_matches google bob) (links (empty_world tt)) = None ->
     write google name_mappings refusing_directory accept_all no_text bob
       (empty_world tt)
       = (Raises (StopSync (ValueError "Invalid Input") None), w')).
Proof.
  apply (@create_other_error_propagates unit google name_mappings
           refusing_directory accept_all no_text bob name_doc
           (empty_world tt) tt (StopSync (ValueError "Invalid Input") None)).
  - discriminate.
  - discriminate.
  - split; [reflexivity|].
    exists [VStr "bob@example.com"]. split; reflexivity.
  - reflexivity.
Defined.

(** C9 does not hold as stated: the insert for bob, who has no link
    record, is answered [NotFound], which is neither [ObjectExists] nor
    [Transient]; the caller gets [NotFoundSyncException], which is not a
    [StopSync]. *)
Lemma create_NotFound_is_not_StopSync :
  find (link_matches google bob) (links (empty_world tt)) = None /\
  users_insert lost_directory name_doc tt = (Raises NotFoundSyncException, tt) /\
  exists e,
    fst (write google name_mappings lost_directory accept_all no_text bob
           (empty_world tt)) = Raises e /\
    fst (_create google name_mappings lost_directory accept_all no_text bob
           (empty_world tt)) = Raises e /\
    is_StopSync e = false.
Proof.
  split; [reflexivity|]. split; [reflexivity|].
  exists NotFoundSyncException. repeat split.
Qed.

Lemma null_primaryEmail_KeyError_witness :
  exists doc,
    to_schema google null_email_mappings no_text bob (empty_world tt)
      = (Returns doc, empty_world tt) /\
    dict_contains "primaryEmail" doc = false /\
    _create google null_email_mappings busy_directory accept_all no_text bob
      (empty_world tt) = (Raises (KeyError "primaryEmail"), empty_world tt) /\
    (forall l,
       _update google null_email_mappings busy_directory accept_all no_text
         bob l (empty_world tt)
         = (Raises (KeyError "primaryEmail"), empty_world tt)) /\
    write google null_email_mappings busy_directory accept_all no_text bob
      (empty_world tt) = (Raises (KeyError "primaryEmail"), empty_world tt).
Proof.
  apply (@null_primaryEmail_KeyError unit google null_email_mappings
           busy_directory accept_all no_text bob
           [("primaryEmail", VNone); ("nickName", VStr "Bob")]
           (empty_world tt)); reflexivity.
Defined.

(* ================================================================= *)
(** ** More on the deep merge *)

Lemma dict_get_set_same (k : string) (v : value) (d : dict) :
  dict_get k (dict_set k v d) = Some v.
Proof.
  induction d as [|[k' v'] d IH]; simpl.
  - now rewrite String.eqb_refl.
  - destruct (String.eqb_spec k k') as [->|Hne]; simpl.
    + now rewrite String.eqb_refl.
    + destruct (String.eqb_spec k k'); [contradiction | exact IH].
Qed.

Lemma dict_get_set_other (k k' : string) (v : value) (d : dict) :
  k <> k' -> dict_get k (dict_set k' v d) = dict_get k d.
Proof.
  intros Hne. induction d as [|[k0 v0] d IH]; simpl.
  - destruct (String.eqb_spec k k'); [contradiction | reflexivity].
  - destruct (String.eqb_spec k' k0) as [->|Hne0]; simpl.
    + destruct (String.eqb_spec k k0); [contradiction | reflexivity].
    + destruct (String.eqb_spec k k0); [reflexivity | exact IH].
Qed.

Lemma dict_set_absent (k : string) (v : value) (d : dict) :
  ~ In k (keys d) -> dict_set k v d = d ++ [(k, v)].
Proof.
  induction d as [|[k' v'] d IH]; simpl; intros Hn; [reflexivity|].
  destruct (String.eqb_spec k k') as [->|Hne]; [tauto|].
  f_equal. apply IH. tauto.
Qed.


(** X2: merging keeps every field of the base where it was: the keys of
    the merged document start with the keys of the base, in the same
    order, and a base without duplicate keys stays so. *)
Theorem strategy_merge_keeps_keys (n b : dict) :
  (exists added, keys (strategy_merge b n) = keys b ++ added) /\
  (NoDup (keys b) -> NoDup (keys (strategy_merge b n))).
Proof.
  split; [|apply strategy_merge_NoDup].
  revert b. induction n as [|[k v] n IH]; simpl; intros b.
  - exists []. now rewrite app_nil_r.
  - match goal with |- context [strategy_merge ?b' n] =>
      destruct (IH b') as [added Ha]; rewrite Ha end.
    destruct (dict_get k b) eqn:Hg; rewrite keys_dict_set;
      unfold dict_contains; rewrite Hg.
    + eauto.
    + exists (k :: added). now rewrite <- app_assoc.
Qed.

(** X3: a fragment that shares no key with the document is appended to
    it as it is; in particular the first fragment merged into the empty
    document is the document. *)
Theorem strategy_merge_disjoint (n b : dict) :
  NoDup (keys n) ->
  (forall k, In k (keys n) -> ~ In k (keys b)) ->
  strategy_merge b n = b ++ n.
Proof.
  revert b. induction n as [|[k v] n IH]; simpl; intros b Hn Hd.
  - now rewrite app_nil_r.
  - inversion Hn as [|? ? Hnin Hn']; subst.
    assert (Hk : ~ In k (keys b)) by (apply Hd; auto).
    rewrite (dict_get_not_In _ _ Hk), dict_set_absent by assumption.
    rewrite IH; [now rewrite <- app_assoc | assumption |].
    intros k' Hk' Hin. unfold keys in Hin. rewrite map_app in Hin.
    apply in_app_or in Hin as [Hin|[<-|[]]].
    + exact (Hd k' (or_intror Hk') Hin).
    + exact (Hnin Hk').
Qed.

(* ================================================================= *)
(** ** More on the schema builder *)

Lemma delete_none_values_lookup (k : string) (d : dict) :
  NoDup (keys d) ->
  dict_get k (delete_none_values d) =
    match dict_get k d with
    | Some VNone => None
    | other => other
    end.
Proof.
  induction d as [|[k' v'] d IH]; simpl; [reflexivity|].
  intros Hd. inversion Hd as [|? ? Hnin Hd']; subst.
  destruct (String.eqb_spec k k') as [->|Hne].
  - destruct v'; simpl; rewrite ?String.eqb_refl; try reflexivity.
    apply (delete_none_values_absent _ _ Hnin).
  - destruct (is_none v'); simpl.
    + apply IH; assumption.
    + destruct (String.eqb_spec k k'); [contradiction|]. apply IH; assumption.
Qed.

Section SchemaEffects.

Variable R : Type.
Variable provider : Provider.
Variable exception_to_string : exn -> string.

Implicit Types (w : World R) (u : User) (raw doc : dict).

(** The mapping loop writes events and nothing else. *)
Lemma merge_mappings_effect u ms : forall raw w o w',
  merge_mappings provider exception_to_string u ms raw w = (o, w') ->
  links w' = links w /\ remote w' = remote w /\ calls w' = calls w.
Proof.
  induction ms as [|m ms IH]; simpl; intros raw w o w' H.
  - unfold ret in H. injection H as _ <-. auto.
  - destruct (pm_is_google m); simpl in *; [|eauto].
    destruct (evaluate m u provider) as [v|e].
    + destruct v; eauto.
    + destruct e; try (unfold raise in H; injection H as _ <-; auto);
        unfold bind, event_save, raise in H; injection H as _ <-; auto.
Qed.

(** A mapping of another kind, one that returns [None], and one that
    returns something that is not a dict all leave the document as it
    is. *)
Lemma merge_mappings_skip u m pre post : forall raw w,
  pm_is_google m = false \/
  evaluate m u provider = Returns VNone \/
  (exists v, evaluate m u provider = Returns v /\ forall d, v <> VDict d) ->
  merge_mappings provider exception_to_string u (pre ++ m :: post) raw w
    = merge_mappings provider exception_to_string u (pre ++ post) raw w.
Proof.
  intros raw w Hm. revert raw w.
  induction pre as [|m' pre IH]; simpl; intros raw w.
  - destruct Hm as [Hg|[Hn|[v [Hv Hd]]]].
    + now rewrite Hg.
    + rewrite Hn. now destruct (pm_is_google m).
    + rewrite Hv. destruct (pm_is_google m); simpl; [|reflexivity].
      destruct v; try reflexivity. now contradiction (Hd kvs).
  - destruct (pm_is_google m'); simpl; [|apply IH].
    destruct (evaluate m' u provider) as [v|e]; [|reflexivity].
    destruct v; apply IH.
Qed.

(** Mappings that are of another kind or return a value carry the loop
    on, with some document, to the mappings behind them. *)
Lemma merge_mappings_prefix u pre : forall raw,
  Forall (fun m => pm_is_google m = false \/
                   exists v, evaluate m u provider = Returns v) pre ->
  exists raw', forall rest w,
    merge_mappings provider exception_to_string u (pre ++ rest) raw w
      = merge_mappings provider exception_to_string u rest raw' w.
Proof.
  induction pre as [|m pre IH]; simpl; intros raw Hp.
  - exists raw. reflexivity.
  - inversion Hp as [|? ? Hm Hp']; subst.
    destruct Hm as [Hg|[v Hv]].
    + destruct (IH raw Hp') as [raw' Hr]. exists raw'. intros rest w.
      rewrite Hg. simpl. apply Hr.
    + destruct (pm_is_google m); simpl; [|
        destruct (IH raw Hp') as [raw' Hr]; exists raw'; exact Hr].
      rewrite Hv.
      destruct v;
        match goal with
        | |- context [merge_in_place raw ?x] =>
            destruct (IH (merge_in_place raw x) Hp') as [raw' Hr]
        | _ => destruct (IH raw Hp') as [raw' Hr]
        end; exists raw'; exact Hr.
Qed.

Variable property_mappings : list PropertyMapping.

Lemma to_schema_effect u w o w' :
  to_schema provider property_mappings exception_to_string u w = (o, w') ->
  links w' = links w /\ remote w' = remote w /\ calls w' = calls w.
Proof.
  unfold to_schema, bind. intros H.
  destruct (merge_mappings provider exception_to_string u
              (order_by_name property_mappings) [] w) as [[raw|e] w1] eqn:Hm.
  - destruct (merge_mappings_Returns _ _ _ _ _ _ Hm) as [-> _].
    destruct raw; [unfold raise in H | unfold ret in H];
      injection H as _ <-; auto.
  - injection H as _ <-. apply (merge_mappings_effect _ _ _ _ Hm).
Qed.

(** X4: when no mapping sets [primaryEmail], the document [to_schema]
    returns carries the user's email address under that key. *)
Theorem to_schema_defaults_primaryEmail u w raw :
  merge_mappings provider exception_to_string u
    (order_by_name property_mappings) [] w = (Returns raw, w) ->
  raw <> [] ->
  dict_get "primaryEmail" raw = None ->
  exists doc,
    to_schema provider property_mappings exception_to_string u w
      = (Returns doc, w) /\
    dict_get "primaryEmail" doc = Some (VStr (email u)).
Proof.
  intros Hm Hne Hg. eexists. split; [apply (to_schema_of_raw _ _ _ _ Hm Hne)|].
  unfold dict_contains. rewrite Hg.
  assert (Hnd : NoDup (keys raw)).
  { apply (merge_mappings_NoDup provider exception_to_string u
             (order_by_name property_mappings) [] w (NoDup_nil _) Hm). }
  rewrite delete_none_values_lookup by (apply dict_set_NoDup; exact Hnd).
  now rewrite dict_get_set_same.
Qed.

(** X5: every field the mappings set to something other than [None],
    [primaryEmail] included, is in the document [to_schema] returns with
    that value, and no field of the returned document is [None]. *)
Theorem to_schema_keeps_fields u w raw :
  merge_mappings provider exception_to_string u
    (order_by_name property_mappings) [] w = (Returns raw, w) ->
  raw <> [] ->
  exists doc,
    to_schema provider property_mappings exception_to_string u w
      = (Returns doc, w) /\
    (forall k v, dict_get k raw = Some v -> v <> VNone ->
                 dict_get k doc = Some v) /\
    (forall k, dict_get k doc <> Some VNone).
Proof.
  intros Hm Hne. eexists. split; [apply (to_schema_of_raw _ _ _ _ Hm Hne)|].
  assert (Hnd : NoDup (keys raw)).
  { apply (merge_mappings_NoDup provider exception_to_string u
             (order_by_name property_mappings) [] w (NoDup_nil _) Hm). }
  assert (Hnd' : NoDup (keys (if dict_contains "primaryEmail" raw then raw
                              else dict_set "primaryEmail" (VStr (email u)) raw))).
  { destruct (dict_contains "primaryEmail" raw);
      [assumption | now apply dict_set_NoDup]. }
  split.
  - intros k v Hk Hv. rewrite (delete_none_values_lookup k _ Hnd').
    assert (Hk' : dict_get k (if dict_contains "primaryEmail" raw then raw
                   else dict_set "primaryEmail" (VStr (email u)) raw) = Some v).
    { unfold dict_contains.
      destruct (dict_get "primaryEmail" raw) eqn:Hp; [assumption|].
      rewrite dict_get_set_other; [assumption|]. intros ->. congruence. }
    rewrite Hk'. destruct v; congruence.
  - intros k. rewrite (delete_none_values_lookup k _ Hnd').
    destruct (dict_get k _) as [[]|]; congruence.
Qed.

End SchemaEffects.

(* ================================================================= *)
(** ** The order of the mappings *)

Lemma ascii_compare_refl (a : ascii) : Ascii.compare a a = Eq.
Proof. unfold Ascii.compare. apply N.compare_refl. Qed.

Lemma string_compare_trans (a : string) : forall b c,
  String.compare a b <> Gt -> String.compare b c <> Gt ->
  String.compare a c <> Gt.
Proof.
  induction a as [|x a IH]; intros [|y b] [|z c]; simpl; try congruence.
  destruct (Ascii.compare x y) eqn:Hxy; try congruence;
    destruct (Ascii.compare y z) eqn:Hyz; try congruence.
  - apply Ascii.compare_eq_iff in Hxy, Hyz. subst.
    rewrite ascii_compare_refl. apply IH.
  - apply Ascii.compare_eq_iff in Hxy. subst. rewrite Hyz. congruence.
  - apply Ascii.compare_eq_iff in Hyz. subst. rewrite Hxy. congruence.
  - unfold Ascii.compare in *.
    rewrite N.compare_lt_iff in Hxy, Hyz.
    assert (H : (N_of_ascii x ?= N_of_ascii z)%N = Lt)
      by (apply N.compare_lt_iff; lia).
    rewrite H. congruence.
Qed.

Lemma string_leb_trans (a b c : string) :
  String.leb a b = true -> String.leb b c = true -> String.leb a c = true.
Proof.
  unfold String.leb. intros Hab Hbc.
  pose proof (@string_compare_trans a b c) as H.
  destruct (String.compare a b), (String.compare b c), (String.compare a c);
    try reflexivity; try discriminate; exfalso; apply H; congruence.
Qed.

Lemma insert_by_name_Permutation (m : PropertyMapping) (ms : list PropertyMapping) :
  Permutation (insert_by_name m ms) (m :: ms).
Proof.
  induction ms as [|m' ms IH]; simpl; [reflexivity|].
  destruct (String.leb (pm_name m) (pm_name m')); [reflexivity|].
  rewrite IH. apply perm_swap.
Qed.

Lemma order_by_name_Permutation (ms : list PropertyMapping) :
  Permutation (order_by_name ms) ms.
Proof.
  induction ms as [|m ms IH]; simpl; [reflexivity|].
  rewrite insert_by_name_Permutation. now constructor.
Qed.

Lemma insert_by_name_sorted (m : PropertyMapping) (ms : list PropertyMapping) :
  StronglySorted (fun a b => String.leb (pm_name a) (pm_name b) = true) ms ->
  StronglySorted (fun a b => String.leb (pm_name a) (pm_name b) = true)
    (insert_by_name m ms).
Proof.
  induction ms as [|m' ms IH]; simpl; intros Hs.
  - repeat constructor.
  - apply StronglySorted_inv in Hs as [Hs Hall].
    destruct (String.leb (pm_name m) (pm_name m')) eqn:Hle.
    + constructor; [constructor; assumption|].
      constructor; [assumption|].
      eapply Forall_impl; [|exact Hall]. simpl. intros x Hx.
      eapply string_leb_trans; eassumption.
    + constructor; [auto|].
      eapply Permutation_Forall;
        [symmetry; apply insert_by_name_Permutation|].
      constructor; [|assumption].
      destruct (String.leb_total (pm_name m) (pm_name m')); congruence.
Qed.

Lemma order_by_name_sorted (ms : list PropertyMapping) :
  StronglySorted (fun a b => String.leb (pm_name a) (pm_name b) = true)
    (order_by_name ms).
Proof.
  induction ms as [|m ms IH]; simpl; [constructor|].
  now apply insert_by_name_sorted.
Qed.

Lemma same_name_same_mapping (ms : list PropertyMapping) (a b : PropertyMapping) :
  NoDup (map pm_name ms) -> In a ms -> In b ms -> pm_name a = pm_name b ->
  a = b.
Proof.
  induction ms as [|m ms IH]; simpl; [tauto|].
  intros Hn Ha Hb He. inversion Hn as [|? ? Hnin Hn']; subst.
  destruct Ha as [->|Ha], Hb as [->|Hb]; auto.
  - exfalso. apply Hnin. rewrite He. now apply in_map.
  - exfalso. apply Hnin. rewrite <- He. now apply in_map.
Qed.

(** Two name-sorted lists of the same mappings, no two of one name, are
    the same list. *)
Lemma sorted_by_name_unique (l1 : list PropertyMapping) : forall l2,
  StronglySorted (fun a b => String.leb (pm_name a) (pm_name b) = true) l1 ->
  StronglySorted (fun a b => String.leb (pm_name a) (pm_name b) = true) l2 ->
  Permutation l1 l2 ->
  NoDup (map pm_name l1) ->
  l1 = l2.
Proof.
  induction l1 as [|a l1 IH]; intros l2 H1 H2 Hp Hn.
  - apply Permutation_nil in Hp. now subst.
  - destruct l2 as [|b l2];
      [apply Permutation_sym, Permutation_nil in Hp; discriminate|].
    apply StronglySorted_inv in H1 as [H1 Ha].
    apply StronglySorted_inv in H2 as [H2 Hb].
    assert (Hab : a = b).
    { assert (Hin_b : In b (a :: l1))
        by (eapply Permutation_in; [symmetry; exact Hp | now left]).
      assert (Hin_a : In a (b :: l2))
        by (eapply Permutation_in; [exact Hp | now left]).
      destruct Hin_b as [Heq|Hin_b]; [assumption|].
      destruct Hin_a as [Heq|Hin_a]; [now symmetry|].
      rewrite Forall_forall in Ha, Hb.
      apply (same_name_same_mapping (a :: l1)); simpl; auto.
      apply String.leb_antisym; auto. }
    subst b. f_equal. apply IH; auto.
    + eapply Permutation_cons_inv; exact Hp.
    + simpl in Hn. now inversion Hn.
Qed.

(** Mappings of different names are evaluated in the order of their
    names, however they are listed. *)
Lemma order_by_name_canonical (ms ms' : list PropertyMapping) :
  Permutation ms ms' ->
  NoDup (map pm_name ms) ->
  order_by_name ms = order_by_name ms' /\
  StronglySorted (fun a b => String.leb (pm_name a) (pm_name b) = true)
    (order_by_name ms) /\
  Permutation (order_by_name ms) ms.
Proof.
  intros Hp Hn. split; [|split].
  - apply sorted_by_name_unique; try apply order_by_name_sorted.
    + rewrite !order_by_name_Permutation. exact Hp.
    + eapply Permutation_NoDup; [|exact Hn].
      apply Permutation_map. symmetry. apply order_by_name_Permutation.
  - apply order_by_name_sorted.
  - apply order_by_name_Permutation.
Qed.

(** X6: the order in which the mappings are attached to the provider
    does not matter when their names differ: [to_schema] does the same
    for any rearrangement of them. *)
Theorem to_schema_attachment_order (R : Type) (provider : Provider)
    (exception_to_string : exn -> string)
    (ms ms' : list PropertyMapping) (u : User) (w : World R) :
  Permutation ms ms' ->
  NoDup (map pm_name ms) ->
  to_schema provider ms exception_to_string u w
    = to_schema provider ms' exception_to_string u w.
Proof.
  intros Hp Hn. unfold to_schema.
  now rewrite (proj1 (order_by_name_canonical Hp Hn)).
Qed.

(** X7: a mapping of another kind, a mapping that returns [None] and a
    mapping that returns something that is not a dict contribute nothing:
    [to_schema] does the same as without that mapping. *)
Theorem to_schema_skips_silent_mapping (R : Type) (provider : Provider)
    (exception_to_string : exn -> string)
    (ms ms' pre post : list PropertyMapping) (m : PropertyMapping)
    (u : User) (w : World R) :
  order_by_name ms = pre ++ m :: post ->
  order_by_name ms' = pre ++ post ->
  pm_is_google m = false \/
  evaluate m u provider = Returns VNone \/
  (exists v, evaluate m u provider = Returns v /\ forall d, v <> VDict d) ->
  to_schema provider ms exception_to_string u w
    = to_schema provider ms' exception_to_string u w.
Proof.
  intros Ho Ho' Hm. unfold to_schema. rewrite Ho, Ho'.
  unfold bind.
  now rewrite (@merge_mappings_skip R provider exception_to_string u m pre post
                 [] w Hm).
Qed.

(* ================================================================= *)
(** ** What a call can do to the link table and the directory *)

Unset Implicit Arguments.

Section SyncEffects.

Variable R : Type.
Variable provider : Provider.
Variable property_mappings : list PropertyMapping.
Variable directory : DirectoryClient R.
Variable check_email_valid : list value -> option exn.
Variable exception_to_string : exn -> string.

Implicit Types (w : World R) (u : User) (doc : dict) (l : LinkRecord).

Local Abbreviation schema u :=
  (to_schema provider property_mappings exception_to_string u).
Local Abbreviation create u :=
  (_create provider property_mappings directory check_email_valid
     exception_to_string u).
Local Abbreviation update u l :=
  (_update provider property_mappings directory check_email_valid
     exception_to_string u l).
Local Abbreviation write_ u :=
  (write provider property_mappings directory check_email_valid
     exception_to_string u).

Lemma call_check_email_valid_effect doc w o w' :
  call_check_email_valid check_email_valid doc w = (o, w') -> w' = w.
Proof.
  unfold call_check_email_valid, bind, lift.
  destruct (email_arguments doc) as [args|e]; [|now intros [= _ <-]].
  destruct (check_email_valid args); unfold raise, ret; now intros [= _ <-].
Qed.

(** What [_create] can have done when it is over. *)
Lemma _create_outcome u w o w' :
  create u w = (o, w') ->
  (o = Returns tt /\
   exists i doc,
     links w' = links w ++ [mkLink (provider_pk provider)
                              (user_pk u) i] /\
     calls w' = calls w ++ [CallInsert doc] /\
     id_held i (links w) = false) \/
  (exists e,
     o = Raises e /\ links w' = links w /\
     (calls w' = calls w \/ exists doc, calls w' = calls w ++ [CallInsert doc])).
Proof.
  unfold _create, bind.
  destruct (schema u w) as [[doc|e] w1] eqn:Hs.
  - apply to_schema_Returns in Hs as [-> _].
    destruct (call_check_email_valid check_email_valid doc w)
      as [[[]|e] w1] eqn:Hc;
      apply call_check_email_valid_effect in Hc as ->.
    + unfold atomic, try_except_else, request_insert, request.
      destruct (users_insert directory doc (remote w)) as [[response|e] r'].
      * unfold bind, lift, objects_create.
        destruct (subscript response "primaryEmail") as [i|e]; simpl;
          [destruct (id_held i (links w)) eqn:Hh|];
          intros [= <- <-]; [right | left | right]; simpl; eauto 10.
      * destruct e; simpl; intros H;
          try (injection H as <- <-; right; simpl; eauto 10; fail).
        unfold objects_create in H. simpl in H.
        destruct (id_held (VStr (email u)) (links w)) eqn:Hh;
          injection H as <- <-; [right | left]; simpl; eauto 10.
    + intros [= <- <-]. right. eauto 10.
  - intros [= <- <-]. right.
    apply to_schema_effect in Hs as (Hl & _ & Hc).
    eauto 10.
Qed.

(** X8: [_create] is all or nothing on the link table.  When it
    raises, the link table is as it was; when it returns, it has appended
    one link record of (provider, user); and it sends one request at
    most, an insert. *)
Theorem _create_all_or_nothing u w o w' :
  _create provider property_mappings directory check_email_valid
    exception_to_string u w = (o, w') ->
  (forall e, o = Raises e -> links w' = links w) /\
  (o = Returns tt ->
   exists i,
     links w' = links w ++ [mkLink (provider_pk provider)
                              (user_pk u) i] /\
     count_links provider u (links w')
       = S (count_links provider u (links w))) /\
  exists cs,
    calls w' = calls w ++ cs /\ List.length cs <= 1 /\
    forall c, In c cs -> exists doc, c = CallInsert doc.
Proof.
  intros H.
  apply _create_outcome in H
    as [(-> & i & doc & Hl & Hc & _)|(e & -> & Hl & Hc)].
  - split; [discriminate|]. split.
    + intros _. exists i. split; [exact Hl|].
      rewrite Hl, count_links_app. unfold count_links at 2. simpl.
      rewrite link_matches_own. simpl. lia.
    + exists [CallInsert doc]. split; [exact Hc|]. split; [simpl; lia|].
      intros c [<-|[]]. eauto.
  - split; [auto|]. split; [discriminate|].
    destruct Hc as [Hc|[doc Hc]].
    + exists []. rewrite app_nil_r. split; [exact Hc|]. split; [simpl; lia|].
      intros c [].
    + exists [CallInsert doc]. split; [exact Hc|]. split; [simpl; lia|].
      intros c [<-|[]]. eauto.
Qed.

(** What [_update] can have done when it is over. *)
Lemma _update_outcome u l w o w' :
  update u l w = (o, w') ->
  links w' = links w /\
  ((exists e, o = Raises e /\ calls w' = calls w) \/
   exists doc, calls w' = calls w ++ [CallUpdate (lr_id l) doc]).
Proof.
  unfold _update, bind.
  destruct (schema u w) as [[doc|e] w1] eqn:Hs.
  - apply to_schema_Returns in Hs as [-> _].
    destruct (call_check_email_valid check_email_valid doc w)
      as [[[]|e] w1] eqn:Hc;
      apply call_check_email_valid_effect in Hc as ->.
    + unfold request_update, request.
      destruct (users_update directory (lr_id l) doc (remote w))
        as [[response|e] r']; intros [= <- <-]; simpl; eauto 10.
    + intros [= <- <-]. eauto 10.
  - intros [= <- <-].
    apply to_schema_effect in Hs as (Hl & _ & Hc).
    eauto 10.
Qed.

(** X9: [_update] never touches the link table, and what it sends, if
    anything, is one update addressed to the stored external identifier;
    when it sent nothing it raised. *)
Theorem _update_keeps_links u l w o w' :
  _update provider property_mappings directory check_email_valid
    exception_to_string u l w = (o, w') ->
  links w' = links w /\
  (forall p' u', count_links p' u' (links w') = count_links p' u' (links w)) /\
  (exists cs,
     calls w' = calls w ++ cs /\ List.length cs <= 1 /\
     forall c, In c cs -> exists doc, c = CallUpdate (lr_id l) doc) /\
  (calls w' = calls w -> exists e, o = Raises e).
Proof.
  intros H. apply _update_outcome in H as (Hl & Hc).
  split; [exact Hl|]. split; [intros; now rewrite Hl|].
  destruct Hc as [(e & -> & Hc)|[doc Hc]].
  - split; [|eauto].
    exists []. rewrite app_nil_r. split; [exact Hc|]. split; [simpl; lia|].
    intros c [].
  - split.
    + exists [CallUpdate (lr_id l) doc]. split; [exact Hc|].
      split; [simpl; lia|]. intros c [<-|[]]. eauto.
    + intros Hsame. rewrite Hsame in Hc.
      apply (f_equal (@List.length call)) in Hc.
      rewrite length_app in Hc. simpl in Hc. exfalso. lia.
Qed.

(** The three ways through [write]. *)
Lemma write_cases u w o w' :
  write_ u w = (o, w') ->
  (find (link_matches provider u) (links w) = None /\ create u w = (o, w')) \/
  (exists l,
     find (link_matches provider u) (links w) = Some l /\
     update u l w = (o, w') /\ o <> Raises NotFoundSyncException) \/
  (exists l w1,
     find (link_matches provider u) (links w) = Some l /\
     update u l w = (Raises NotFoundSyncException, w1) /\
     create u
       (mkWorld
          (filter (fun l' => negb (value_eqb (lr_id l') (lr_id l))) (links w1))
          (events w1) (remote w1) (calls w1)) = (o, w')).
Proof.
  unfold write, bind at 1, objects_filter_first.
  destruct (find (link_matches provider u) (links w)) as [l|]; [|auto].
  unfold try_except, try_except_else.
  destruct (update u l w) as [[[]|e] w1] eqn:Hu.
  - unfold ret. intros [= <- <-]. right. left. exists l.
    repeat split; [assumption | discriminate].
  - destruct e;
      try (intros [= <- <-]; right; left; exists l;
           repeat split; [assumption | discriminate]).
    unfold bind, instance_delete. intros Hc.
    right. right. exists l, w1. auto.
Qed.

Lemma find_Some_count u (ls : list LinkRecord) l :
  find (link_matches provider u) ls = Some l ->
  1 <= count_links provider u ls.
Proof.
  unfold count_links. induction ls as [|l' ls IH]; simpl; [discriminate|].
  destruct (link_matches provider u l'); simpl; [lia | exact IH].
Qed.

Lemma count_links_fresh u (ls : list LinkRecord) i :
  count_links provider u
    (ls ++ [mkLink (provider_pk provider) (user_pk u) i])
  = S (count_links provider u ls).
Proof.
  rewrite count_links_app. unfold count_links at 2. simpl.
  rewrite link_matches_own. simpl. lia.
Qed.

(** X10: [write] keeps (provider, user) at one link record at most, and
    a [write] that returns leaves exactly one. *)
Theorem write_keeps_one_link u w o w' :
  write_ u w = (o, w') ->
  count_links provider u (links w) <= 1 ->
  count_links provider u (links w') <= 1 /\
  (o = Returns tt -> count_links provider u (links w') = 1).
Proof.
  intros Hw Hc.
  apply write_cases in Hw
    as [[Hf Hcr]|[(l & Hf & Hu & _)|(l & w1 & Hf & Hu & Hcr)]].
  - apply find_None_count in Hf.
    apply _create_outcome in Hcr
      as [(-> & i & doc & Hl & _)|(e & -> & Hl & _)]; rewrite Hl.
    + rewrite count_links_fresh, Hf. auto.
    + rewrite Hf. split; [lia | discriminate].
  - apply find_Some_count in Hf.
    apply _update_outcome in Hu as (Hl & _). rewrite Hl.
    split; [assumption | lia].
  - pose proof (find_Some_count _ _ _ Hf) as Hge.
    assert (Hone : count_links provider u (links w) = 1) by lia.
    apply _update_outcome in Hu as (Hl & _).
    pose proof (delete_only_link _ _ _ Hf Hone) as Hd.
    apply _create_outcome in Hcr
      as [(-> & i & doc & Hl' & _)|(e & -> & Hl' & _)];
      rewrite Hl'; simpl; rewrite Hl.
    + rewrite count_links_fresh. unfold count_links. rewrite Hd. auto.
    + unfold count_links. rewrite Hd. simpl. split; [lia | discriminate].
Qed.

(** X11: the requests [write] sends are an update, if any, and then an
    insert, if any: at most one update, addressed to the identifier
    stored in the link record the lookup found, followed by at most one
    insert; so two requests at most, and never a delete. *)
Theorem write_sends_no_delete u w o w' :
  write provider property_mappings directory check_email_valid
    exception_to_string u w = (o, w') ->
  exists updates inserts,
    calls w' = calls w ++ updates ++ inserts /\
    List.length updates <= 1 /\
    List.length inserts <= 1 /\
    (forall c, In c updates ->
       exists l doc,
         find (link_matches provider u) (links w) = Some l /\
         c = CallUpdate (lr_id l) doc) /\
    (forall c, In c inserts -> exists doc, c = CallInsert doc) /\
    List.length (updates ++ inserts) <= 2 /\
    forall userKey, ~ In (CallDelete userKey) (updates ++ inserts).
Proof.
  intros Hw.
  assert (Hshape : exists updates inserts,
    calls w' = calls w ++ updates ++ inserts /\
    (updates = [] \/
     exists l doc, find (link_matches provider u) (links w) = Some l /\
                   updates = [CallUpdate (lr_id l) doc]) /\
    (inserts = [] \/ exists doc, inserts = [CallInsert doc])).
  { apply write_cases in Hw
      as [[Hf Hcr]|[(l & Hf & Hu & _)|(l & w1 & Hf & Hu & Hcr)]].
    - exists [].
      apply _create_outcome in Hcr
        as [(_ & i & doc & _ & Hc & _)|(e & _ & _ & [Hc|[doc Hc]])].
      + exists [CallInsert doc]. simpl. eauto 10.
      + exists []. simpl. rewrite app_nil_r. eauto 10.
      + exists [CallInsert doc]. simpl. eauto 10.
    - apply _update_outcome in Hu as (_ & [(e & _ & Hc)|[doc Hc]]).
      + exists [], []. simpl. rewrite app_nil_r. eauto 10.
      + exists [CallUpdate (lr_id l) doc], []. simpl. eauto 10.
    - apply _update_outcome in Hu as (_ & [(e & _ & Hc)|[doc Hc]]);
        apply _create_outcome in Hcr
          as [(_ & i & doc' & _ & Hc' & _)|(e' & _ & _ & [Hc'|[doc' Hc']])];
        simpl in Hc'; rewrite Hc in Hc'.
      + exists [], [CallInsert doc']. simpl. eauto 10.
      + exists [], []. simpl. rewrite app_nil_r. eauto 10.
      + exists [], [CallInsert doc']. simpl. eauto 10.
      + exists [CallUpdate (lr_id l) doc], [CallInsert doc'].
        rewrite <- app_assoc in Hc'. simpl in *. eauto 10.
      + exists [CallUpdate (lr_id l) doc], []. simpl. eauto 10.
      + exists [CallUpdate (lr_id l) doc], [CallInsert doc'].
        rewrite <- app_assoc in Hc'. simpl in *. eauto 10. }
  destruct Hshape as (updates & inserts & Hc & Hu & Hi).
  exists updates, inserts. split; [exact Hc|].
  assert (Hus : List.length updates <= 1 /\
                forall c, In c updates ->
                  exists l doc,
                    find (link_matches provider u) (links w) = Some l /\
                    c = CallUpdate (lr_id l) doc).
  { destruct Hu as [->|(l & doc & Hf & ->)]; simpl.
    - split; [lia|]. intros c [].
    - split; [lia|]. intros c [<-|[]]. eauto. }
  assert (His : List.length inserts <= 1 /\
                forall c, In c inserts -> exists doc, c = CallInsert doc).
  { destruct Hi as [->|(doc' & ->)]; simpl.
    - split; [lia|]. intros c [].
    - split; [lia|]. intros c [<-|[]]. eauto. }
  destruct Hus as [Hus1 Hus2], His as [His1 His2].
  split; [exact Hus1|]. split; [exact His1|].
  split; [exact Hus2|]. split; [exact His2|]. split.
  - rewrite length_app. lia.
  - intros k Hin. apply in_app_or in Hin as [Hin|Hin].
    + apply Hus2 in Hin as (l & doc & _ & Heq). discriminate.
    + apply His2 in Hin as (doc & Heq). discriminate.
Qed.

Lemma same_id_same_link (ls : list LinkRecord) l l' :
  NoDup (map lr_id ls) -> In l ls -> In l' ls -> lr_id l' = lr_id l ->
  l' = l.
Proof.
  induction ls as [|x ls IH]; simpl; [tauto|].
  intros Hn Hl Hl' He. inversion Hn as [|? ? Hnin Hn']; subst.
  destruct Hl as [->|Hl], Hl' as [->|Hl']; auto.
  - exfalso. apply Hnin. rewrite <- He. now apply in_map.
  - exfalso. apply Hnin. rewrite He. now apply in_map.
Qed.

(** X12: [write] for one user leaves the link records of every other
    (provider, user) in the table, no two rows of which hold the same
    identifier. *)
Theorem write_leaves_other_links u w o w' :
  NoDup (map lr_id (links w)) ->
  write_ u w = (o, w') ->
  forall l', In l' (links w) -> link_matches provider u l' = false ->
             In l' (links w').
Proof.
  intros Hn Hw l' Hin Hm.
  apply write_cases in Hw
    as [[Hf Hcr]|[(l & Hf & Hu & _)|(l & w1 & Hf & Hu & Hcr)]].
  - apply _create_outcome in Hcr
      as [(_ & i & doc & Hl & _)|(e & _ & Hl & _)]; rewrite Hl;
      [apply in_or_app; auto | assumption].
  - apply _update_outcome in Hu as (Hl & _). now rewrite Hl.
  - apply _update_outcome in Hu as (Hl & _).
    assert (Hkept : In l' (filter (fun x => negb (value_eqb (lr_id x) (lr_id l)))
                             (links w1))).
    { rewrite Hl. apply filter_In. split; [assumption|].
      destruct (value_eqb (lr_id l') (lr_id l)) eqn:He; [|reflexivity].
      apply value_eqb_eq in He.
      apply find_some in Hf as [Hlin Hlm].
      rewrite (same_id_same_link _ _ _ Hn Hlin Hin He) in Hm. congruence. }
    apply _create_outcome in Hcr
      as [(_ & i & doc & Hl' & _)|(e & _ & Hl' & _)]; rewrite Hl'; simpl;
      [apply in_or_app; auto | assumption].
Qed.

(** X13: when [check_email_valid] rejects the addresses of the built
    document, [_create] and [_update] raise its exception with the world
    untouched: nothing is sent and no link record changes. *)
Theorem rejected_address_sends_nothing u doc w args e :
  schema u w = (Returns doc, w) ->
  email_arguments doc = Returns args ->
  check_email_valid args = Some e ->
  create u w = (Raises e, w) /\
  (forall l, update u l w = (Raises e, w)) /\
  (find (link_matches provider u) (links w) = None ->
   write_ u w = (Raises e, w)).
Proof.
  intros Hs Ha Hc.
  assert (Hcr : create u w = (Raises e, w)).
  { unfold _create, bind at 1. rewrite Hs.
    unfold bind at 1, call_check_email_valid, bind, lift.
    now rewrite Ha, Hc. }
  split; [exact Hcr|]. split.
  - intros l. unfold _update, bind at 1. rewrite Hs.
    unfold bind at 1, call_check_email_valid, bind, lift.
    now rewrite Ha, Hc.
  - intros Hf. unfold write, bind at 1, objects_filter_first.
    now rewrite Hf.
Qed.

(** X14: when a mapping raises [PropertyMappingExpressionException] or
    [ValueError], the mappings before it having been evaluated without
    an exception, [to_schema] saves one configuration-error event naming
    that mapping and raises [StopSync] with the exception and the
    mapping; [write] raises the same, sends nothing and leaves the link
    table alone. *)
Theorem mapping_failure_stops_sync u w pre m post exc :
  order_by_name property_mappings = pre ++ m :: post ->
  Forall (fun m' => pm_is_google m' = false \/
                    exists v, evaluate m' u provider = Returns v) pre ->
  pm_is_google m = true ->
  evaluate m u provider = Raises exc ->
  (exists msg, exc = PropertyMappingExpressionException msg) \/
  (exists msg, exc = ValueError msg) ->
  exists w',
    w' = mkWorld (links w) (events w ++
              [mkEvent "configuration_error"
                 ("Failed to evaluate property-mapping "
                    ++ exception_to_string exc) (pm_name m)])
           (remote w) (calls w) /\
    schema u w = (Raises (StopSync exc (Some (pm_name m))), w') /\
    write_ u w = (Raises (StopSync exc (Some (pm_name m))), w').
Proof.
  intros Ho Hpre Hg He Hexc. eexists. split; [reflexivity|].
  match goal with |- schema u w = (?o, ?w') /\ _ =>
    assert (Hs : schema u w = (o, w')) end.
  { unfold to_schema, bind. rewrite Ho.
    destruct (@merge_mappings_prefix R provider exception_to_string u pre [] Hpre)
      as [raw' Hr].
    rewrite Hr. simpl. rewrite Hg, He. simpl.
    destruct Hexc as [[msg ->]|[msg ->]]; reflexivity. }
  split; [exact Hs|].
  unfold write, bind at 1, objects_filter_first.
  destruct (find (link_matches provider u) (links w)) as [l|].
  - unfold try_except, try_except_else, _update, bind at 1. now rewrite Hs.
  - unfold _create, bind at 1. now rewrite Hs.
Qed.

(** X15: any other exception of a mapping leaves [to_schema] as it is,
    without an event and without becoming a [StopSync]; [_create] and
    [_update] raise it with the world untouched. *)
Theorem mapping_exception_propagates u w pre m post exc :
  order_by_name property_mappings = pre ++ m :: post ->
  Forall (fun m' => pm_is_google m' = false \/
                    exists v, evaluate m' u provider = Returns v) pre ->
  pm_is_google m = true ->
  evaluate m u provider = Raises exc ->
  (forall msg, exc <> PropertyMappingExpressionException msg) ->
  (forall msg, exc <> ValueError msg) ->
  schema u w = (Raises exc, w) /\
  create u w = (Raises exc, w) /\
  forall l, update u l w = (Raises exc, w).
Proof.
  intros Ho Hpre Hg He Hp Hv.
  assert (Hs : schema u w = (Raises exc, w)).
  { unfold to_schema, bind. rewrite Ho.
    destruct (@merge_mappings_prefix R provider exception_to_string u pre [] Hpre)
      as [raw' Hr].
    rewrite Hr. simpl. rewrite Hg, He. simpl.
    destruct exc; try reflexivity;
      [now contradiction (Hp msg) | now contradiction (Hv msg)]. }
  split; [exact Hs|]. split.
  - unfold _create, bind at 1. now rewrite Hs.
  - intros l. unfold _update, bind at 1. now rewrite Hs.
Qed.

(** With a link record, [delete] depends on the directory's answer
    alone. *)
Lemma delete_at_directory u l w :
  find (link_matches provider u) (links w) = Some l ->
  delete provider directory u w =
    match users_delete directory (lr_id l) (remote w) with
    | (Returns response, r') =>
        (Returns response,
         mkWorld
           (filter (fun l' => negb (value_eqb (lr_id l') (lr_id l))) (links w))
           (events w) r' (calls w ++ [CallDelete (lr_id l)]))
    | (Raises e, r') =>
        (Raises e,
         mkWorld (links w) (events w) r'
                 (calls w ++ [CallDelete (lr_id l)]))
    end.
Proof.
  intros Hf.
  unfold delete, bind at 1, objects_filter_first. rewrite Hf.
  unfold atomic, bind, request_delete, request, instance_delete.
  destruct (users_delete directory (lr_id l) (remote w)) as [[response|e] r'];
    reflexivity.
Qed.

(** X16: [delete] for a user without a link record returns [None] and
    does nothing: no request is sent and the world is as it was. *)
Theorem delete_without_link u w :
  find (link_matches provider u) (links w) = None ->
  delete provider directory u w = (Returns VNone, w).
Proof.
  intros Hf. unfold delete, bind, objects_filter_first. now rewrite Hf.
Qed.

(** X17: when the remote delete of a linked user returns, [delete]
    returns its response, has sent that one request for the stored
    external identifier, and has removed the link record; if it was the
    only one of (provider, user), none is left. *)
Theorem delete_removes_link u l w response r' :
  find (link_matches provider u) (links w) = Some l ->
  users_delete directory (lr_id l) (remote w) = (Returns response, r') ->
  exists w',
    delete provider directory u w = (Returns response, w') /\
    links w' = filter (fun l' => negb (value_eqb (lr_id l') (lr_id l))) (links w) /\
    calls w' = calls w ++ [CallDelete (lr_id l)] /\
    ~ In l (links w') /\
    (count_links provider u (links w) = 1 ->
     find (link_matches provider u) (links w') = None).
Proof.
  intros Hf Hd. rewrite (delete_at_directory u l w Hf), Hd.
  eexists. split; [reflexivity|]. simpl. repeat split.
  - intros Hin. apply filter_In in Hin as [_ Hne].
    now rewrite value_eqb_refl in Hne.
  - intros Hc. pose proof (delete_only_link _ _ _ Hf Hc) as Hnil.
    destruct (find (link_matches provider u)
                (filter (fun l' => negb (value_eqb (lr_id l') (lr_id l))) (links w)))
      as [x|] eqn:Hx; [|reflexivity].
    apply find_some in Hx as [Hin Hm].
    assert (Hin' : In x (filter (link_matches provider u)
                           (filter (fun l' => negb (value_eqb (lr_id l') (lr_id l)))
                              (links w))))
      by (apply filter_In; auto).
    rewrite Hnil in Hin'. contradiction.
Qed.

(** X18: whatever exception the remote delete raises, [delete] raises it
    to the caller and the link table is as it was before the call. *)
Theorem delete_error_keeps_link u l w e r' :
  find (link_matches provider u) (links w) = Some l ->
  users_delete directory (lr_id l) (remote w) = (Raises e, r') ->
  exists w',
    delete provider directory u w = (Raises e, w') /\
    links w' = links w /\
    calls w' = calls w ++ [CallDelete (lr_id l)].
Proof.
  intros Hf Hd. rewrite (delete_at_directory u l w Hf), Hd.
  eexists. split; [reflexivity|]. simpl. auto.
Qed.

(** X19: a [write] that creates the link record of a user, under an
    identifier no link record held, followed by a [delete] that succeeds
    gives the link table back as it was. *)
Theorem write_then_delete_restores u doc w response i r1 response' r2 :
  find (link_matches provider u) (links w) = None ->
  reaches_directory provider property_mappings check_email_valid
    exception_to_string u doc w ->
  users_insert directory doc (remote w) = (Returns response, r1) ->
  subscript response "primaryEmail" = Returns i ->
  id_held i (links w) = false ->
  users_delete directory i r1 = (Returns response', r2) ->
  exists w1 w2,
    write_ u w = (Returns tt, w1) /\
    delete provider directory u w1 = (Returns response', w2) /\
    links w2 = links w /\
    calls w2 = calls w ++ [CallInsert doc; CallDelete i].
Proof.
  intros Hf Hr Hi Hs Hh Hd.
  set (fresh := mkLink (provider_pk provider) (user_pk u) i).
  set (w1 := mkWorld (links w ++ [fresh]) (events w) r1
               (calls w ++ [CallInsert doc])).
  assert (H1 : write_ u w = (Returns tt, w1)).
  { rewrite write_without_link by exact Hf.
    rewrite (_create_at_directory directory Hr), Hi, Hs, Hh.
    reflexivity. }
  assert (Hf1 : find (link_matches provider u) (links w1) = Some fresh).
  { apply find_after_create; [assumption | apply link_matches_own]. }
  pose proof (delete_at_directory u fresh w1 Hf1) as H2.
  simpl in H2. rewrite Hd in H2.
  exists w1. eexists. split; [exact H1|]. split; [exact H2|]. simpl. split.
  - rewrite filter_app. simpl. rewrite value_eqb_refl. simpl.
    rewrite app_nil_r. now apply filter_not_held.
  - now rewrite <- app_assoc.
Qed.

Lemma addresses_all (xs : list value) : forall rest,
  Forall2 (fun x a => subscript x "address" = Returns a) xs rest ->
  addresses xs = Returns rest.
Proof.
  induction xs as [|x xs IH]; intros rest H; inversion H; subst; simpl.
  - reflexivity.
  - match goal with Hx : subscript x "address" = _ |- _ => rewrite Hx end.
    now rewrite (IH _ ltac:(eassumption)).
Qed.

Lemma addresses_missing (pre : list value) : forall d post,
  Forall (fun x => exists a, subscript x "address" = Returns a) pre ->
  dict_get "address" d = None ->
  addresses (pre ++ VDict d :: post) = Raises (KeyError "address").
Proof.
  induction pre as [|x pre IH]; intros d post Hpre Hd; simpl.
  - now rewrite Hd.
  - inversion Hpre as [|? ? [a Ha] Hpre']; subst.
    rewrite Ha. now rewrite (IH d post Hpre' Hd).
Qed.

(** X20: when the document lists its [emails] as entries that each have
    an [address], the check is given [primaryEmail] first and then every
    address in the order listed; without an [emails] field it is given
    [primaryEmail] alone. *)
Theorem email_arguments_lists_addresses doc p :
  dict_get "primaryEmail" doc = Some p ->
  (dict_get "emails" doc = None -> email_arguments doc = Returns [p]) /\
  (forall xs rest,
     dict_get "emails" doc = Some (VList xs) ->
     Forall2 (fun x a => subscript x "address" = Returns a) xs rest ->
     email_arguments doc = Returns (p :: rest)).
Proof.
  intros Hp. unfold email_arguments. simpl. rewrite Hp. split.
  - intros ->. reflexivity.
  - intros xs rest -> Hxs. simpl. now rewrite (addresses_all xs rest Hxs).
Qed.

(** X21: an entry of [emails] without an [address], the entries before
    it having one, makes [_create] and [_update] raise
    [KeyError("address")] before anything is sent. *)
Theorem emails_without_address_KeyError u w doc p pre d post :
  schema u w = (Returns doc, w) ->
  dict_get "primaryEmail" doc = Some p ->
  dict_get "emails" doc = Some (VList (pre ++ VDict d :: post)) ->
  Forall (fun x => exists a, subscript x "address" = Returns a) pre ->
  dict_get "address" d = None ->
  create u w = (Raises (KeyError "address"), w) /\
  forall l, update u l w = (Raises (KeyError "address"), w).
Proof.
  intros Hs Hp He Hpre Hd.
  assert (Ha : email_arguments doc = Raises (KeyError "address")).
  { unfold email_arguments. simpl. rewrite Hp, He. simpl.
    now rewrite (addresses_missing pre d post Hpre Hd). }
  split; [|intros l]; [unfold _create | unfold _update];
    unfold bind at 1; rewrite Hs;
    unfold bind at 1, call_check_email_valid, bind, lift; now rewrite Ha.
Qed.

Lemma merge_mappings_silent u ms : forall raw w,
  Forall (fun m => pm_is_google m = false \/
                   evaluate m u provider = Returns VNone) ms ->
  merge_mappings provider exception_to_string u ms raw w = (Returns raw, w).
Proof.
  induction ms as [|m ms IH]; simpl; intros raw w Hall; [reflexivity|].
  inversion Hall as [|? ? Hm Hall']; subst.
  destruct Hm as [Hg|Hn].
  - rewrite Hg. simpl. now apply IH.
  - rewrite Hn. destruct (pm_is_google m); simpl; now apply IH.
Qed.

(** X22: when every mapping attached to the provider is of another kind
    or returns [None], [to_schema] raises [StopSync] for want of
    mappings, and so does [write], with the world untouched. *)
Theorem write_silent_mappings_StopSync u w :
  Forall (fun m => pm_is_google m = false \/
                   evaluate m u provider = Returns VNone) property_mappings ->
  to_schema provider property_mappings exception_to_string u w
    = (Raises (StopSync (ValueError "No user mappings configured") None), w) /\
  write provider property_mappings directory check_email_valid
    exception_to_string u w
    = (Raises (StopSync (ValueError "No user mappings configured") None), w).
Proof.
  intros Hall.
  assert (Hs : schema u w
               = (Raises (StopSync (ValueError "No user mappings configured")
                            None), w)).
  { unfold to_schema, bind. rewrite merge_mappings_silent; [reflexivity|].
    eapply Permutation_Forall; [|exact Hall].
    symmetry. apply order_by_name_Permutation. }
  split; [exact Hs|].
  unfold write, bind at 1, objects_filter_first.
  destruct (find (link_matches provider u) (links w)) as [l|].
  - unfold try_except, try_except_else, _update, bind at 1. now rewrite Hs.
  - unfold _create, bind at 1. now rewrite Hs.
Qed.

End SyncEffects.

(* ================================================================= *)
(** ** The further theorems at work *)


Lemma strategy_merge_keeps_keys_witness :
  (exists added,
     keys (strategy_merge [("name", VStr "A")]
             [("nickName", VStr "Bob"); ("name", VStr "B")])
     = keys [("name", VStr "A")] ++ added) /\
  NoDup (keys (strategy_merge [("name", VStr "A")]
                 [("nickName", VStr "Bob"); ("name", VStr "B")])).
Proof.
  destruct (@strategy_merge_keeps_keys
              [("nickName", VStr "Bob"); ("name", VStr "B")]
              [("name", VStr "A")]) as [Hk Hn].
  split; [exact Hk|]. apply Hn. distinct_keys.
Defined.

Lemma strategy_merge_disjoint_witness :
  strategy_merge [] [("name", VStr "A"); ("nickName", VStr "Bob")]
  = [] ++ [("name", VStr "A"); ("nickName", VStr "Bob")].
Proof.
  apply (@strategy_merge_disjoint
           [("name", VStr "A"); ("nickName", VStr "Bob")] []).
  - distinct_keys.
  - intros k _ [].
Defined.

Lemma to_schema_defaults_primaryEmail_witness :
  exists doc,
    to_schema google name_mappings no_text bob (empty_world tt)
      = (Returns doc, empty_world tt) /\
    dict_get "primaryEmail" doc = Some (VStr "bob@example.com").
Proof.
  apply (@to_schema_defaults_primaryEmail unit google no_text name_mappings
           bob (empty_world tt) [("name", VStr "B")]).
  - reflexivity.
  - discriminate.
  - reflexivity.
Defined.

Lemma to_schema_keeps_fields_witness :
  exists doc,
    to_schema google alias_mappings no_text bob (empty_world tt)
      = (Returns doc, empty_world tt) /\
    dict_get "primaryEmail" doc = Some (VStr "robert@example.com") /\
    dict_get "nickName" doc <> Some VNone.
Proof.
  destruct (@to_schema_keeps_fields unit google no_text alias_mappings bob
              (empty_world tt)
              [("primaryEmail", VStr "robert@example.com");
               ("nickName", VNone)])
    as (doc & Hs & Hkeep & Hnone).
  - reflexivity.
  - discriminate.
  - exists doc. split; [exact Hs|]. split.
    + apply Hkeep; [reflexivity | discriminate].
    + apply Hnone.
Defined.

Lemma to_schema_attachment_order_witness :
  to_schema google name_mappings no_text bob (empty_world tt)
  = to_schema google (rev name_mappings) no_text bob (empty_world tt).
Proof.
  apply (@to_schema_attachment_order unit google no_text name_mappings
           (rev name_mappings) bob (empty_world tt)).
  - apply perm_swap.
  - distinct_keys.
Defined.

Lemma to_schema_skips_silent_mapping_witness :
  to_schema google (silent_mapping :: name_mappings) no_text bob
    (empty_world tt)
  = to_schema google name_mappings no_text bob (empty_world tt).
Proof.
  apply (@to_schema_skips_silent_mapping unit google no_text
           (silent_mapping :: name_mappings) name_mappings
           [constant_mapping "10-base" (VDict [("name", VStr "A")])]
           [constant_mapping "20-override" (VDict [("name", VStr "B")])]
           silent_mapping bob (empty_world tt)).
  - reflexivity.
  - reflexivity.
  - right. left. reflexivity.
Defined.

Lemma _create_all_or_nothing_witness :
  (forall e, Returns tt = Raises e ->
     links created_world = links (empty_world (@nil string))) /\
  (Returns tt = Returns tt ->
   exists i,
     links created_world
       = links (empty_world (@nil string))
           ++ [mkLink (provider_pk google) (user_pk bob) i] /\
     count_links google bob (links created_world)
       = S (count_links google bob (links (empty_world (@nil string))))) /\
  exists cs,
    calls created_world = calls (empty_world (@nil string)) ++ cs /\
    List.length cs <= 1 /\
    forall c, In c cs -> exists doc, c = CallInsert doc.
Proof.
  apply (_create_all_or_nothing (list string) google name_mappings
           memory_directory accept_all no_text bob (empty_world [])
           (Returns tt) created_world).
  reflexivity.
Defined.

Lemma _update_keeps_links_witness :
  links (snd (_update google name_mappings memory_directory accept_all
                no_text bob bob_link created_world))
    = links created_world /\
  exists cs,
    calls (snd (_update google name_mappings memory_directory accept_all
                  no_text bob bob_link created_world))
      = calls created_world ++ cs /\
    List.length cs <= 1 /\
    forall c, In c cs -> exists doc, c = CallUpdate (lr_id bob_link) doc.
Proof.
  destruct (_update_keeps_links (list string) google name_mappings
              memory_directory accept_all no_text bob bob_link created_world
              (fst (_update google name_mappings memory_directory accept_all
                      no_text bob bob_link created_world))
              (snd (_update google name_mappings memory_directory accept_all
                      no_text bob bob_link created_world)))
    as (Hl & _ & Hc & _).
  - reflexivity.
  - split; assumption.
Defined.

Lemma write_keeps_one_link_witness :
  count_links google bob
    (links (snd (write google name_mappings memory_directory accept_all
                   no_text bob two_links_world))) <= 1 /\
  (fst (write google name_mappings memory_directory accept_all no_text bob
          two_links_world) = Returns tt ->
   count_links google bob
     (links (snd (write google name_mappings memory_directory accept_all
                    no_text bob two_links_world))) = 1).
Proof.
  apply (write_keeps_one_link (list string) google name_mappings
           memory_directory accept_all no_text bob two_links_world).
  - reflexivity.
  - vm_compute. lia.
Defined.

Lemma write_sends_no_delete_witness :
  exists updates inserts,
    calls (snd (write google name_mappings memory_directory accept_all
                  no_text bob two_links_world))
      = calls two_links_world ++ updates ++ inserts /\
    List.length updates <= 1 /\
    List.length inserts <= 1 /\
    (forall c, In c updates ->
       exists l doc,
         find (link_matches google bob) (links two_links_world) = Some l /\
         c = CallUpdate (lr_id l) doc) /\
    (forall c, In c inserts -> exists doc, c = CallInsert doc) /\
    List.length (updates ++ inserts) <= 2 /\
    forall userKey, ~ In (CallDelete userKey) (updates ++ inserts).
Proof.
  apply (write_sends_no_delete (list string) google name_mappings
           memory_directory accept_all no_text bob two_links_world
           (fst (write google name_mappings memory_directory accept_all
                   no_text bob two_links_world))).
  reflexivity.
Defined.

Lemma write_leaves_other_links_witness :
  In alice_link
    (links (snd (write google name_mappings memory_directory accept_all
                   no_text bob two_links_world))).
Proof.
  apply (write_leaves_other_links (list string) google name_mappings
           memory_directory accept_all no_text bob two_links_world
           (fst (write google name_mappings memory_directory accept_all
                   no_text bob two_links_world))).
  - repeat (constructor; [simpl; intuition discriminate|]); constructor.
  - reflexivity.
  - simpl. auto.
  - reflexivity.
Defined.

Lemma rejected_address_sends_nothing_witness :
  _create google name_mappings memory_directory reject_all no_text bob
    (empty_world [])
    = (Raises (OtherException "BadRequestSyncException"), empty_world []) /\
  (forall l,
     _update google name_mappings memory_directory reject_all no_text bob l
       (empty_world [])
       = (Raises (OtherException "BadRequestSyncException"), empty_world [])) /\
  (find (link_matches google bob) (links (empty_world (@nil string))) = None ->
   write google name_mappings memory_directory reject_all no_text bob
     (empty_world [])
     = (Raises (OtherException "BadRequestSyncException"), empty_world [])).
Proof.
  apply (rejected_address_sends_nothing (list string) google name_mappings
           memory_directory reject_all no_text bob name_doc (empty_world [])
           [VStr "bob@example.com"]
           (OtherException "BadRequestSyncException")); reflexivity.
Defined.

Lemma mapping_failure_stops_sync_witness :
  exists w',
    w' = mkWorld [] [mkEvent "configuration_error"
              ("Failed to evaluate property-mapping "
                 ++ no_text (ValueError "bad value")) "15-broken"]
           [] [] /\
    to_schema google (failing_mapping :: name_mappings) no_text bob
      (empty_world (@nil string))
      = (Raises (StopSync (ValueError "bad value") (Some "15-broken")), w') /\
    write google (failing_mapping :: name_mappings) memory_directory
      accept_all no_text bob (empty_world [])
      = (Raises (StopSync (ValueError "bad value") (Some "15-broken")), w').
Proof.
  apply (mapping_failure_stops_sync (list string) google
           (failing_mapping :: name_mappings) memory_directory accept_all
           no_text bob (empty_world [])
           [constant_mapping "10-base" (VDict [("name", VStr "A")])]
           failing_mapping
           [constant_mapping "20-override" (VDict [("name", VStr "B")])]
           (ValueError "bad value")).
  - reflexivity.
  - constructor; [|constructor]. right. eexists. reflexivity.
  - reflexivity.
  - reflexivity.
  - right. eexists. reflexivity.
Defined.

Lemma mapping_exception_propagates_witness :
  to_schema google (crashing_mapping :: name_mappings) no_text bob
    (empty_world (@nil string))
    = (Raises (KeyError "attributes"), empty_world []) /\
  _create google (crashing_mapping :: name_mappings) memory_directory
    accept_all no_text bob (empty_world [])
    = (Raises (KeyError "attributes"), empty_world []) /\
  forall l,
    _update google (crashing_mapping :: name_mappings) memory_directory
      accept_all no_text bob l (empty_world [])
      = (Raises (KeyError "attributes"), empty_world []).
Proof.
  apply (mapping_exception_propagates (list string) google
           (crashing_mapping :: name_mappings) memory_directory accept_all
           no_text bob (empty_world [])
           [constant_mapping "10-base" (VDict [("name", VStr "A")])]
           crashing_mapping
           [constant_mapping "20-override" (VDict [("name", VStr "B")])]
           (KeyError "attributes")).
  - reflexivity.
  - constructor; [|constructor]. right. eexists. reflexivity.
  - reflexivity.
  - reflexivity.
  - discriminate.
  - discriminate.
Defined.

Lemma delete_without_link_witness :
  delete google memory_directory bob (empty_world ["bob@example.com"])
  = (Returns VNone, empty_world ["bob@example.com"]).
Proof.
  apply (delete_without_link (list string) google memory_directory bob
           (empty_world ["bob@example.com"])).
  reflexivity.
Defined.

Lemma delete_removes_link_witness :
  exists w',
    delete google memory_directory bob created_world = (Returns VNone, w') /\
    links w' = [] /\
    calls w' = calls created_world ++ [CallDelete (VStr "bob@example.com")] /\
    find (link_matches google bob) (links w') = None.
Proof.
  destruct (delete_removes_link (list string) google memory_directory bob
              bob_link created_world VNone [])
    as (w' & Hd & Hl & Hc & _ & Hf).
  - reflexivity.
  - reflexivity.
  - exists w'. split; [exact Hd|]. split; [exact Hl|]. split; [exact Hc|].
    apply Hf. reflexivity.
Defined.

Lemma delete_error_keeps_link_witness :
  exists w',
    delete google down_directory bob (linked_world tt)
      = (Raises TransientSyncException, w') /\
    links w' = links (linked_world tt) /\
    calls w' = calls (linked_world tt) ++ [CallDelete (lr_id bob_link)].
Proof.
  apply (delete_error_keeps_link unit google down_directory bob bob_link
           (linked_world tt) TransientSyncException tt); reflexivity.
Defined.

Lemma write_then_delete_restores_witness :
  exists w1 w2,
    write google name_mappings memory_directory accept_all no_text bob
      (empty_world []) = (Returns tt, w1) /\
    delete google memory_directory bob w1 = (Returns VNone, w2) /\
    links w2 = links (empty_world (@nil string)) /\
    calls w2 = calls (empty_world (@nil string))
                 ++ [CallInsert name_doc; CallDelete (VStr "bob@example.com")].
Proof.
  apply (write_then_delete_restores (list string) google name_mappings
           memory_directory accept_all no_text bob name_doc (empty_world [])
           (VDict name_doc) (VStr "bob@example.com") ["bob@example.com"]
           VNone []).
  - reflexivity.
  - split; [reflexivity|].
    exists [VStr "bob@example.com"]. split; reflexivity.
  - reflexivity.
  - reflexivity.
  - reflexivity.
  - reflexivity.
Defined.

Lemma email_arguments_lists_addresses_witness :
  email_arguments
    [("primaryEmail", VStr "bob@example.com");
     ("emails", VList [VDict [("address", VStr "bob@example.org")];
                       VDict [("address", VStr "rob@example.com");
                              ("type", VStr "work")]])]
  = Returns [VStr "bob@example.com"; VStr "bob@example.org";
             VStr "rob@example.com"].
Proof.
  destruct (email_arguments_lists_addresses
              [("primaryEmail", VStr "bob@example.com");
               ("emails", VList [VDict [("address", VStr "bob@example.org")];
                                 VDict [("address", VStr "rob@example.com");
                                        ("type", VStr "work")]])]
              (VStr "bob@example.com")) as [_ Hlist].
  - reflexivity.
  - apply (Hlist
             [VDict [("address", VStr "bob@example.org")];
              VDict [("address", VStr "rob@example.com");
                     ("type", VStr "work")]]
             [VStr "bob@example.org"; VStr "rob@example.com"]).
    + reflexivity.
    + repeat constructor.
Defined.

Lemma emails_without_address_KeyError_witness :
  _create google emails_mappings memory_directory accept_all no_text bob
    (empty_world [])
    = (Raises (KeyError "address"), empty_world []) /\
  forall l,
    _update google emails_mappings memory_directory accept_all no_text bob l
      (empty_world [])
      = (Raises (KeyError "address"), empty_world []).
Proof.
  apply (emails_without_address_KeyError (list string) google emails_mappings
           memory_directory accept_all no_text bob (empty_world [])
           emails_doc (VStr "bob@example.com")
           [VDict [("address", VStr "bob@example.com")]]
           [("type", VStr "work")] []).
  - reflexivity.
  - reflexivity.
  - reflexivity.
  - constructor; [|constructor]. eexists. reflexivity.
  - reflexivity.
Defined.

Lemma write_silent_mappings_StopSync_witness :
  to_schema google [silent_mapping; foreign_mapping] no_text bob
    (linked_world tt)
    = (Raises (StopSync (ValueError "No user mappings configured") None),
       linked_world tt) /\
  write google [silent_mapping; foreign_mapping] down_directory accept_all
    no_text bob (linked_world tt)
    = (Raises (StopSync (ValueError "No user mappings configured") None),
       linked_world tt).
Proof.
  apply (write_silent_mappings_StopSync unit google
           [silent_mapping; foreign_mapping] down_directory accept_all
           no_text bob (linked_world tt)).
  constructor; [right; reflexivity|].
  constructor; [left; reflexivity|]. constructor.
Defined.

(* ================================================================= *)
(** ** Outposts: required objects and the service user *)

Lemma string_length_append (a s : string) :
  String.length (a ++ s) = String.length a + String.length s.
Proof. induction a as [|c a IH]; simpl; [reflexivity | now rewrite IH]. Qed.

Lemma string_append_inv_tail (s a : string) : forall b,
  (a ++ s)%string = (b ++ s)%string -> a = b.
Proof.
  induction a as [|c a IH]; intros [|c' b] H; simpl in H.
  - reflexivity.
  - apply (f_equal String.length) in H. simpl in H.
    rewrite string_length_append in H. lia.
  - apply (f_equal String.length) in H. simpl in H.
    rewrite string_length_append in H. lia.
  - injection H as -> H. f_equal. now apply IH.
Qed.

Section OutpostFacts.

Import Outposts.

(** The order the database hands rows back in. *)
Variable query_order : list Provider -> list Provider.

Implicit Types (self : Outpost) (db : DB) (obj : ModelObject).

Lemma fold_add_required (ps : list Provider) : forall objects,
  fold_left add_required ps objects
  = objects ++ flat_map (fun p => if is_OutpostModel p
                                  then provider_required_objects p
                                  else [provider_object p]) ps.
Proof.
  induction ps as [|p ps IH]; simpl; intros objects.
  - now rewrite app_nil_r.
  - rewrite IH. unfold add_required.
    destruct (is_OutpostModel p); now rewrite <- app_assoc.
Qed.

Lemma attached_providers_In self db p :
  In p (attached_providers self db)
  <-> In (uuid_hex self, p) (outpost_providers db).
Proof.
  unfold attached_providers. rewrite in_map_iff. split.
  - intros [[k p'] [Hp Hin]]. simpl in Hp. subst p'.
    apply filter_In in Hin as [Hin Hk]. simpl in Hk.
    apply String.eqb_eq in Hk. now subst k.
  - intros Hin. exists (uuid_hex self, p). split; [reflexivity|].
    apply filter_In. split; [assumption|]. simpl. apply String.eqb_refl.
Qed.

Lemma providers_of_In self db p :
  (forall ps, Permutation (query_order ps) ps) ->
  In p (providers_of query_order self db)
  <-> In (uuid_hex self, p) (outpost_providers db).
Proof.
  intros Hq. rewrite <- attached_providers_In. unfold providers_of. split.
  - apply Permutation_in, Hq.
  - apply Permutation_in. symmetry. apply Hq.
Qed.

(** X23: when every provider of the outpost that is an [OutpostModel]
    keeps the inherited [get_required_objects], the objects required are
    the outpost itself, first, and then its attached providers, each
    once, in whatever order the database handed them back. *)
Theorem get_required_objects_inherited self db :
  (forall ps, Permutation (query_order ps) ps) ->
  (forall p, In (uuid_hex self, p) (outpost_providers db) ->
     is_OutpostModel p = true ->
     provider_required_objects p
       = OutpostModel_get_required_objects (provider_object p)) ->
  exists rest,
    get_required_objects query_order self db = outpost_object self :: rest /\
    Permutation rest (map provider_object (attached_providers self db)).
Proof.
  intros Hq H.
  exists (map provider_object (providers_of query_order self db)). split.
  - unfold get_required_objects. rewrite fold_add_required. simpl. f_equal.
    assert (Hall : forall p, In p (providers_of query_order self db) ->
                     is_OutpostModel p = true ->
                     provider_required_objects p
                       = OutpostModel_get_required_objects (provider_object p)).
    { intros p Hp. apply H. now apply (providers_of_In self db p Hq). }
    induction (providers_of query_order self db) as [|p ps IH]; simpl;
      [reflexivity|].
    rewrite IH by (intros q Hq'; apply Hall; now right).
    destruct (is_OutpostModel p) eqn:Hp; [|reflexivity].
    rewrite (Hall p (or_introl eq_refl) Hp). reflexivity.
  - apply Permutation_map. apply Hq.
Qed.

(** X24: an object is required exactly when it is the outpost itself,
    a provider attached to this outpost that is not an [OutpostModel],
    or one of the objects an attached [OutpostModel] provider asks for;
    providers of other outposts do not count, and the order in which the
    database hands the providers back does not matter. *)
Theorem get_required_objects_spec self db obj :
  (forall ps, Permutation (query_order ps) ps) ->
  In obj (get_required_objects query_order self db) <->
  obj = outpost_object self \/
  exists p,
    In (uuid_hex self, p) (outpost_providers db) /\
    (if is_OutpostModel p then In obj (provider_required_objects p)
     else obj = provider_object p).
Proof.
  intros Hq.
  unfold get_required_objects. rewrite fold_add_required. simpl.
  rewrite in_flat_map. split.
  - intros [H|[p [Hp Hin]]]; [now left|]. right. exists p.
    rewrite <- (providers_of_In self db p Hq). split; [assumption|].
    destruct (is_OutpostModel p); [assumption|].
    destruct Hin as [H|[]]. now symmetry.
  - intros [H|[p [Hp Hin]]]; [now left|]. right. exists p.
    rewrite (providers_of_In self db p Hq). split; [assumption|].
    destruct (is_OutpostModel p); [assumption | now left].
Qed.

(** X25: two outposts have the same health cache key, and the same
    service user name, only when they have the same uuid. *)
Theorem outpost_keys_injective (a b : Outpost) :
  (health_cache_key a = health_cache_key b <-> uuid_hex a = uuid_hex b) /\
  (service_username a = service_username b <-> uuid_hex a = uuid_hex b).
Proof.
  unfold health_cache_key, service_username. split; split.
  - intros H. apply (f_equal (fun s => substring 8 (String.length s - 8) s)) in H.
    simpl in H. rewrite !Nat.sub_0_r in H.
    assert (Hs : forall s, substring 0 (String.length s) s = s).
    { induction s as [|c s IH]; simpl; [reflexivity | now rewrite IH]. }
    rewrite !Hs in H. now apply string_append_inv_tail in H.
  - now intros ->.
  - intros H. simpl in H. now injection H.
  - now intros ->.
Qed.

Lemma object_eqb_eq (a b : ModelObject) : object_eqb a b = true -> a = b.
Proof.
  destruct a, b. unfold object_eqb. simpl. intros H.
  apply andb_prop in H as [H H3]. apply andb_prop in H as [H1 H2].
  apply String.eqb_eq in H1, H2, H3. now subst.
Qed.

Lemma permission_eqb_eq (a b : Permission) : permission_eqb a b = true -> a = b.
Proof.
  destruct a, b. unfold permission_eqb. simpl. intros H.
  apply andb_prop in H as [H H3]. apply andb_prop in H as [H1 H2].
  apply String.eqb_eq in H1. apply Nat.eqb_eq in H2.
  apply object_eqb_eq in H3. now subst.
Qed.

Lemma assign_perm_tables p (u : User) obj db :
  users (assign_perm p u obj db) = users db /\
  outpost_providers (assign_perm p u obj db) = outpost_providers db /\
  (forall r, In r (permissions db) -> In r (permissions (assign_perm p u obj db))) /\
  In (mkPermission p (user_pk u) obj) (permissions (assign_perm p u obj db)).
Proof.
  unfold assign_perm.
  destruct (existsb (permission_eqb (mkPermission p (user_pk u) obj))
              (permissions db)) eqn:He; simpl.
  - repeat split; auto.
    apply existsb_exists in He as [r [Hin Heq]].
    apply permission_eqb_eq in Heq. now subst.
  - repeat split; auto; intros; apply in_or_app; simpl; auto.
Qed.

Lemma assign_all_tables (u : User) (objs : list ModelObject) : forall db,
  let db' := fold_left
               (fun d model => assign_perm (view_permission model) u model d)
               objs db in
  users db' = users db /\
  outpost_providers db' = outpost_providers db /\
  (forall r, In r (permissions db) -> In r (permissions db')) /\
  (forall obj, In obj objs ->
     In (mkPermission (view_permission obj) (user_pk u) obj) (permissions db')).
Proof.
  induction objs as [|o objs IH]; simpl; intros db.
  - repeat split; auto. intros obj [].
  - destruct (IH (assign_perm (view_permission o) u o db))
      as (Hu & Hp & Hkeep & Hnew).
    destruct (assign_perm_tables (view_permission o) u o db)
      as (Hu' & Hp' & Hkeep' & Hnew').
    repeat split.
    + now rewrite Hu.
    + now rewrite Hp.
    + auto.
    + intros obj [<-|Hin]; auto.
Qed.

Lemma filter_saved (f : User -> bool) (u : User) (rows : list User) :
  f u = true -> filter f rows = [] ->
  Forall (fun x => x = u)
    (filter f (map (fun row => if Nat.eqb (user_pk row) (user_pk u) then u
                               else row) rows)).
Proof.
  intros Hu. induction rows as [|r rows IH]; simpl; [constructor|].
  destruct (f r) eqn:Hr; [discriminate|]. intros Hn.
  destruct (Nat.eqb (user_pk r) (user_pk u)).
  - rewrite Hu. constructor; auto.
  - rewrite Hr. auto.
Qed.

Lemma no_user_of_name (name0 : string) (rows : list User) :
  filter (fun row => String.eqb (username row) name0) rows = [] ->
  existsb (fun row => String.eqb (username row) name0) rows = false.
Proof.
  induction rows as [|r rows IH]; simpl; [reflexivity|].
  destruct (String.eqb (username r) name0); [discriminate | exact IH].
Qed.

(** What the [user] property does when no user has the service name. *)
Lemma user_creates self db :
  filter (fun row => String.eqb (username row) (service_username self))
    (users db) = [] ->
  user query_order self db =
    (Returns (mkUser (next_user_pk db) (service_username self) false),
     fold_left
       (fun db' model =>
          assign_perm (view_permission model)
            (mkUser (next_user_pk db) (service_username self) false) model db')
       (get_required_objects query_order self db)
       (save (mkUser (next_user_pk db) (service_username self) false)
          (mkDB (users db
                   ++ [mkUser (next_user_pk db) (service_username self) true])
             (S (next_user_pk db)) (permissions db) (outpost_providers db)))).
Proof.
  intros Hf. unfold user. rewrite Hf.
  unfold _create_user, objects_create.
  now rewrite (no_user_of_name _ _ Hf).
Qed.

(** X26: the [user] property gets or creates, and never raises.  The
    user it returns has the service name of the outpost and is in the
    users table; when a user of that name was there already it is
    returned and nothing is written; and asking again returns the same
    user and writes nothing. *)
Theorem user_gets_or_creates self db :
  exists (u : User) db',
    user query_order self db = (Returns u, db') /\
    username u = service_username self /\
    In u (users db') /\
    (filter (fun row => String.eqb (username row) (service_username self))
       (users db) <> [] -> db' = db) /\
    user query_order self db' = (Returns u, db').
Proof.
  destruct (filter (fun row => String.eqb (username row) (service_username self))
              (users db)) as [|first rest] eqn:Hf.
  - rewrite (user_creates self db Hf).
    set (u0 := mkUser (next_user_pk db) (service_username self) false).
    set (db2 := save u0 _).
    exists u0. eexists. split; [reflexivity|].
    destruct (assign_all_tables u0 (get_required_objects query_order self db)
                db2) as (Hu & _).
    assert (Hname : String.eqb (username u0) (service_username self) = true)
      by apply String.eqb_refl.
    assert (Hrows : exists rest,
              filter (fun row => String.eqb (username row) (service_username self))
                (users db2) = u0 :: rest).
    { unfold db2, save. simpl. rewrite map_app, filter_app. simpl.
      rewrite Nat.eqb_refl. rewrite Hname.
      pose proof (filter_saved
                    (fun row => String.eqb (username row) (service_username self))
                    u0 (users db) Hname Hf) as Hall.
      simpl in Hall.
      destruct (filter _ (map _ (users db))) as [|x xs]; simpl; [eauto|].
      inversion Hall; subst. eauto. }
    destruct Hrows as [rest Hrows].
    split; [reflexivity|]. split; [|split; [intros H; now contradiction H|]].
    + rewrite Hu.
      assert (Hin : In u0 (filter (fun row => String.eqb (username row)
                                                (service_username self))
                             (users db2)))
        by (rewrite Hrows; now left).
      now apply filter_In in Hin.
    + unfold user. rewrite Hu, Hrows. reflexivity.
  - exists first, db.
    assert (Hin : In first (filter (fun row => String.eqb (username row)
                                                 (service_username self))
                              (users db)))
      by (rewrite Hf; now left).
    apply filter_In in Hin as [Hin Hn]. apply String.eqb_eq in Hn.
    assert (Hu : user query_order self db = (Returns first, db))
      by (unfold user; now rewrite Hf).
    split; [exact Hu|]. split; [assumption|]. split; [assumption|].
    split; [reflexivity | exact Hu].
Qed.

(** X27: when no user has the service name yet, the [user] property
    returns a user it created, who has an unusable password and holds,
    for every object the outpost requires, the view permission of that
    object's model; no permission that was there is lost. *)
Theorem user_created_with_permissions self db :
  filter (fun row => String.eqb (username row) (service_username self))
    (users db) = [] ->
  exists (u : User) db',
    user query_order self db = (Returns u, db') /\
    u = mkUser (next_user_pk db) (service_username self) false /\
    (forall obj, In obj (get_required_objects query_order self db) ->
       In (mkPermission (app_label obj ++ ".view_" ++ model_name obj)
             (user_pk u) obj) (permissions db')) /\
    (forall r, In r (permissions db) -> In r (permissions db')).
Proof.
  intros Hf. rewrite (user_creates self db Hf).
  set (u0 := mkUser (next_user_pk db) (service_username self) false).
  set (db2 := save u0 _).
  exists u0. eexists. split; [reflexivity|].
  destruct (assign_all_tables u0 (get_required_objects query_order self db) db2)
    as (_ & _ & Hkeep & Hnew).
  split; [reflexivity|]. split.
  - intros obj Hin. apply (Hnew obj). exact Hin.
  - intros r Hr. apply Hkeep. exact Hr.
Qed.

End OutpostFacts.

Lemma get_required_objects_inherited_witness :
  exists rest,
    Outposts.get_required_objects Outposts.last_first Outposts.edge
      Outposts.edge_db
      = Outposts.outpost_object Outposts.edge :: rest /\
    Permutation rest
      [Outposts.provider_object Outposts.proxy_provider;
       Outposts.provider_object Outposts.plain_provider].
Proof.
  apply (get_required_objects_inherited Outposts.last_first Outposts.edge
           Outposts.edge_db).
  - intros ps. symmetry. apply Permutation_rev.
  - intros p [H|[H|[H|[]]]]; try discriminate;
      injection H as <-; intros Hm; [reflexivity | discriminate].
Defined.

Lemma get_required_objects_spec_witness :
  In (Outposts.provider_object Outposts.plain_provider)
    (Outposts.get_required_objects Outposts.last_first Outposts.edge
       Outposts.edge_db).
Proof.
  apply (get_required_objects_spec Outposts.last_first Outposts.edge
           Outposts.edge_db
           (Outposts.provider_object Outposts.plain_provider)).
  - intros ps. symmetry. apply Permutation_rev.
  - right. exists Outposts.plain_provider. split; [|reflexivity].
    simpl. auto.
Defined.

Lemma user_gets_or_creates_witness :
  exists u db',
    Outposts.user Outposts.last_first Outposts.edge Outposts.edge_db
      = (Returns u, db') /\
    Outposts.username u = "pb-outpost-0af1" /\
    Outposts.user Outposts.last_first Outposts.edge db' = (Returns u, db').
Proof.
  destruct (user_gets_or_creates Outposts.last_first Outposts.edge
              Outposts.edge_db) as (u & db' & Hu & Hn & _ & _ & Hagain).
  exists u, db'. split; [exact Hu|]. split; [exact Hn | exact Hagain].
Defined.

Lemma user_created_with_permissions_witness :
  exists u db',
    Outposts.user Outposts.last_first Outposts.edge Outposts.edge_db
      = (Returns u, db') /\
    In (Outposts.mkPermission "passbook_core.view_provider"
          (Outposts.user_pk u)
          (Outposts.provider_object Outposts.plain_provider))
      (Outposts.permissions db').
Proof.
  destruct (user_created_with_permissions Outposts.last_first Outposts.edge
              Outposts.edge_db) as (u & db' & Hu & _ & Hperm & _).
  - reflexivity.
  - exists u, db'. split; [exact Hu|].
    apply (Hperm (Outposts.provider_object Outposts.plain_provider)).
    vm_compute. auto.
Defined.
